(** * CrossingBench: the cost model, the sweep and the comparison

    A shallow embedding of [src/crossingbench/core.py], read twice.

    The exact reading (the top level of this file):
    - a Python [int] is a [Z];
    - a Python [float] is a real number of [R]: arithmetic is exact, there
      is no rounding, no overflow and no NaN.  The only infinite value the
      source writes down itself, [float("inf")] in the comparison, is kept
      by the type [xfloat];
    - a Python exception is a value of [exn]; a computation that may raise
      has type [result A], and is sequenced with [x <- e ;; k];
    - the partial primitives of the source ([/], [math.log], list indexing)
      raise in the model exactly where Python raises on real numbers.

    The binary64 reading (module [B64]):
    - a Python [float] is an IEEE 754 double, a [spec_float] with precision
      53 and maximal exponent 1024; [+], [-], [*], [/] round to nearest,
      ties to even;
    - the conversions of CPython raise as CPython does: [float(n)] and
      [a / b] on ints raise [OverflowError] when the result is too large,
      [round] and [math.ceil] raise on an infinity and on a NaN;
    - the logarithm and the exponential of the C library are not fixed by
      IEEE 754: they are the two fields of a record [Libm], and a statement
      about [B64] holds for every such library unless it says otherwise.

    The claims on what the code samples, returns or raises are settled on
    [B64].  The exact reading gives the formulas of the cost model their
    meaning; it is kept for the relations between the returned energies and
    for the order properties that rounding to nearest preserves, stated on
    a range of inputs that the double arithmetic cannot leave
    ([count_limit], [cost_limit]). *)

From Stdlib Require Import Reals Zfloor Lra Lia ZArith List String Bool.
From Stdlib Require Import SpecFloat Classical.
Import ListNotations.

Local Open Scope R_scope.

(** ** Exceptions and the error monad *)

Inductive exn : Type :=
| ValueError (msg : string)
| ZeroDivisionError
| IndexError
| OverflowError.

Inductive result (A : Type) : Type :=
| Ok (a : A)
| Raise (e : exn).

Arguments Ok {A} a.
Arguments Raise {A} e.

Definition bind {A B : Type} (m : result A) (k : A -> result B) : result B :=
  match m with
  | Ok a => k a
  | Raise e => Raise e
  end.

Notation "x <- m ;; k" := (bind m (fun x => k))
  (at level 61, m at next level, right associativity).
Notation "' pat <- m ;; k" := (bind m (fun x => match x with pat => k end))
  (at level 61, pat pattern, m at next level, right associativity).

(** A [for] loop that appends one computed element per iteration. *)
Fixpoint for_each {A B : Type} (f : A -> result B) (xs : list A)
  : result (list B) :=
  match xs with
  | [] => Ok []
  | x :: xs' =>
      y <- f x ;;
      ys <- for_each f xs' ;;
      Ok (y :: ys)
  end.

(** ** Comparisons of floats, as booleans *)

Definition Rle_b (x y : R) : bool := if Rle_dec x y then true else false.
Definition Rlt_b (x y : R) : bool := if Rlt_dec x y then true else false.
Definition Req_b (x y : R) : bool := if Req_dec_T x y then true else false.

(** ** Numeric primitives of Python *)

(** [float(n)] for an int [n]. *)
Definition float (n : Z) : R := IZR n.

(** [x / y] on floats (and on ints, which Python converts first). *)
Definition truediv (x y : R) : result R :=
  if Req_b y 0 then Raise ZeroDivisionError else Ok (x / y).

(** [math.log(x)]. *)
Definition math_log (x : R) : result R :=
  if Rle_b x 0 then Raise (ValueError "math domain error") else Ok (ln x).

(** [math.exp(x)]. *)
Definition math_exp (x : R) : R := exp x.

(** [math.ceil(x)]: the least integer not below [x]. *)
Definition math_ceil (x : R) : Z := Zceil x.

(** [round(x)] with one argument: the nearest integer, a tie going to the
    even neighbour. *)
Definition round (x : R) : Z :=
  let f := Zfloor x in
  let d := x - IZR f in
  if Rlt_b d (/ 2) then f
  else if Rlt_b (/ 2) d then (f + 1)%Z
  else if Z.even f then f else (f + 1)%Z.

(** [range(n)]. *)
Definition range (n : Z) : list Z := map Z.of_nat (seq 0 (Z.to_nat n)).

(** [enumerate(xs)]. *)
Definition enumerate {A : Type} (xs : list A) : list (nat * A) :=
  combine (seq 0 (List.length xs)) xs.

(** [xs[i]] for a non-negative index. *)
Definition getitem {A : Type} (xs : list A) (i : nat) : result A :=
  match nth_error xs i with
  | Some x => Ok x
  | None => Raise IndexError
  end.

(** ** Floats that may be infinite *)

Inductive xfloat : Type :=
| Finite (r : R)
| PInf
| NInf.

(** [x > 0]. *)
Definition xfloat_pos (x : xfloat) : bool :=
  match x with
  | Finite r => Rlt_b 0 r
  | PInf => true
  | NInf => false
  end.

(** [math.log(x)]: the logarithm of [inf] is [inf]. *)
Definition xfloat_log (x : xfloat) : result xfloat :=
  match x with
  | Finite r => l <- math_log r ;; Ok (Finite l)
  | PInf => Ok PInf
  | NInf => Raise (ValueError "math domain error")
  end.

(** [x / y] for a finite divisor [y]. *)
Definition xfloat_div (x : xfloat) (y : R) : result xfloat :=
  if Req_b y 0 then Raise ZeroDivisionError
  else match x with
       | Finite r => Ok (Finite (r / y))
       | PInf => Ok (if Rlt_b 0 y then PInf else NInf)
       | NInf => Ok (if Rlt_b 0 y then NInf else PInf)
       end.

(** ** Data model *)

Record BoundaryCost : Type := mkBoundaryCost {
  alpha_pj_per_event : R;
  beta_pj_per_byte : R
}.

Record ComputeCost : Type := mkComputeCost {
  pj_per_byte : R
}.

Module ProgramPoint.
Record t : Type := mk {
  bytes_compute : Z;
  bytes_cross : Z;
  events_cross : Z
}.
End ProgramPoint.

Module ResultPoint.
Record t : Type := mk {
  bytes_compute : Z;
  bytes_cross : Z;
  events_cross : Z;
  c_intra_pj : R;
  c_cross_pj : R;
  c_total_pj : R;
  crossing_fraction : R;
  epsilon_local : R
}.
End ResultPoint.

(** ** Cost model *)

Definition energy_intra (bytes_compute : Z) (compute : ComputeCost) : R :=
  float bytes_compute * pj_per_byte compute.

Definition energy_cross (bytes_cross events_cross : Z)
    (boundary : BoundaryCost) : R :=
  float events_cross * alpha_pj_per_event boundary
  + float bytes_cross * beta_pj_per_byte boundary.

Definition crossing_fraction (c_cross c_total : R) : result R :=
  if Rle_b c_total 0 then Ok 0
  else truediv c_cross c_total.

Definition log_slope (x1 y1 x2 y2 : R) : result R :=
  if Rle_b x1 0 || Rle_b x2 0 || Rle_b y1 0 || Rle_b y2 0 || Req_b x1 x2
  then Ok 0
  else
    ly2 <- math_log y2 ;;
    ly1 <- math_log y1 ;;
    lx2 <- math_log x2 ;;
    lx1 <- math_log x1 ;;
    truediv (ly2 - ly1) (lx2 - lx1).

Definition run_point (p : ProgramPoint.t) (compute : ComputeCost)
    (boundary : BoundaryCost) : result (R * R * R * R) :=
  let c_intra := energy_intra (ProgramPoint.bytes_compute p) compute in
  let c_cross :=
    energy_cross (ProgramPoint.bytes_cross p) (ProgramPoint.events_cross p)
      boundary in
  let c_total := c_intra + c_cross in
  frac <- crossing_fraction c_cross c_total ;;
  Ok (c_intra, c_cross, c_total, frac).

(** ** The sweep *)

(** One iteration of the sampling loop of [sweep]. *)
Definition sweep_sample (bytes_compute steps bytes_per_event : Z)
    (log_min log_max : R) (i : Z) : result ProgramPoint.t :=
  t <- truediv (float i) (float (steps - 1)) ;;
  let b := round (math_exp (log_min + t * (log_max - log_min))) in
  q <- truediv (float b) (float bytes_per_event) ;;
  let ev := Z.max 1 (math_ceil q) in
  Ok (ProgramPoint.mk bytes_compute b ev).

(** One iteration of the evaluation loop of [sweep]. *)
Definition sweep_energy (compute : ComputeCost) (boundary : BoundaryCost)
    (p : ProgramPoint.t) : result (ProgramPoint.t * R * R * R * R) :=
  '(c_intra, c_cross, c_total, frac) <- run_point p compute boundary ;;
  Ok (p, c_intra, c_cross, c_total, frac).

(** One iteration of the elasticity loop of [sweep]. *)
Definition sweep_result (energies : list (ProgramPoint.t * R * R * R * R))
    (ie : nat * (ProgramPoint.t * R * R * R * R)) : result ResultPoint.t :=
  let '(i, (p, c_intra, c_cross, c_total, frac)) := ie in
  eps <- (if Nat.eqb i 0 then Ok 0
          else
            '(p_prev, _, _, c_total_prev, _) <- getitem energies (i - 1) ;;
            log_slope (float (ProgramPoint.bytes_cross p_prev)) c_total_prev
                      (float (ProgramPoint.bytes_cross p)) c_total) ;;
  Ok (ResultPoint.mk (ProgramPoint.bytes_compute p)
        (ProgramPoint.bytes_cross p) (ProgramPoint.events_cross p)
        c_intra c_cross c_total frac eps).

Definition sweep (bytes_compute cross_min cross_max steps bytes_per_event : Z)
    (compute : ComputeCost) (boundary : BoundaryCost)
  : result (list ResultPoint.t) :=
  if (steps <? 2)%Z then Raise (ValueError "steps must be >= 2")
  else if (cross_min <=? 0)%Z || (cross_max <=? 0)%Z
          || (cross_min >? cross_max)%Z
  then Raise (ValueError "Require 0 < cross_min <= cross_max")
  else if (bytes_per_event <=? 0)%Z
  then Raise (ValueError "bytes_per_event must be > 0")
  else
    log_min <- math_log (float cross_min) ;;
    log_max <- math_log (float cross_max) ;;
    points <- for_each
                (sweep_sample bytes_compute steps bytes_per_event
                   log_min log_max)
                (range steps) ;;
    energies <- for_each (sweep_energy compute boundary) points ;;
    results <- for_each (sweep_result energies) (enumerate energies) ;;
    Ok results.

(** ** The comparison of a baseline with a reduced crossing volume *)

Module CompareResult.
Record t : Type := mk {
  baseline_total_pj : R;
  baseline_intra_pj : R;
  baseline_cross_pj : R;
  baseline_cross_frac : R;
  baseline_cross_bytes : R;
  baseline_events : R;
  reduced_total_pj : R;
  reduced_intra_pj : R;
  reduced_cross_pj : R;
  reduced_cross_frac : R;
  reduced_cross_bytes : R;
  reduced_events : R;
  reduce_factor : R;
  energy_gain_x : xfloat;
  elasticity_effective : xfloat
}.
End CompareResult.

Definition compare_baseline_vs_reduced
    (bytes_compute cross_bytes bytes_per_event : Z) (reduce_factor : R)
    (compute : ComputeCost) (boundary : BoundaryCost)
  : result CompareResult.t :=
  if (cross_bytes <=? 0)%Z then Raise (ValueError "cross_bytes must be > 0")
  else if (bytes_per_event <=? 0)%Z
  then Raise (ValueError "bytes_per_event must be > 0")
  else if Rle_b reduce_factor 0
  then Raise (ValueError "reduce_factor must be > 0")
  else
    qb <- truediv (float cross_bytes) (float bytes_per_event) ;;
    let base_ev := Z.max 1 (math_ceil qb) in
    qr <- truediv (float cross_bytes) reduce_factor ;;
    let red_bytes := Z.max 1 (round qr) in
    qe <- truediv (float red_bytes) (float bytes_per_event) ;;
    let red_ev := Z.max 1 (math_ceil qe) in
    let base := ProgramPoint.mk bytes_compute cross_bytes base_ev in
    let red := ProgramPoint.mk bytes_compute red_bytes red_ev in
    '(base_intra, base_cross, base_total, base_frac) <-
       run_point base compute boundary ;;
    '(red_intra, red_cross, red_total, red_frac) <-
       run_point red compute boundary ;;
    gain <- (if Rlt_b 0 red_total
             then g <- truediv base_total red_total ;; Ok (Finite g)
             else Ok PInf) ;;
    eff_eps <- (if negb (Req_b reduce_factor 1) && xfloat_pos gain
                then
                  lg <- xfloat_log gain ;;
                  lr <- math_log reduce_factor ;;
                  xfloat_div lg lr
                else Ok (Finite 0)) ;;
    Ok (CompareResult.mk base_total base_intra base_cross base_frac
          (float cross_bytes) (float base_ev)
          red_total red_intra red_cross red_frac
          (float red_bytes) (float red_ev)
          reduce_factor gain eff_eps).

(** ** Closed forms

    What the operations above compute where they do not raise, written
    without the error monad.  The lemmas of the second part relate them to
    the operations. *)

(** The value of [crossing_fraction]. *)
Definition fraction_value (c_cross c_total : R) : R :=
  if Rlt_b 0 c_total then c_cross / c_total else 0.

(** The value of [log_slope]. *)
Definition slope_value (x1 y1 x2 y2 : R) : R :=
  if Rlt_b 0 x1 && Rlt_b 0 x2 && Rlt_b 0 y1 && Rlt_b 0 y2
     && negb (Req_b x1 x2)
  then (ln y2 - ln y1) / (ln x2 - ln x1)
  else 0.

(** The value of one iteration of the elasticity loop, when the list
    of energies is long enough for the index. *)
Definition result_value (energies : list (ProgramPoint.t * R * R * R * R))
    (ie : nat * (ProgramPoint.t * R * R * R * R)) : ResultPoint.t :=
  let '(i, (p, c_intra, c_cross, c_total, frac)) := ie in
  ResultPoint.mk (ProgramPoint.bytes_compute p)
    (ProgramPoint.bytes_cross p) (ProgramPoint.events_cross p)
    c_intra c_cross c_total frac
    match i with
    | O => 0
    | S j =>
        match nth_error energies j with
        | Some (p_prev, _, _, c_total_prev, _) =>
            slope_value (float (ProgramPoint.bytes_cross p_prev)) c_total_prev
                        (float (ProgramPoint.bytes_cross p)) c_total
        | None => 0
        end
    end.

Section SweepValue.

Variables bytes_compute cross_min cross_max steps bytes_per_event : Z.
Variable compute : ComputeCost.
Variable boundary : BoundaryCost.

(** The sampled crossing volume of step [i], as the specification writes
    it: the geometric interpolation between [cross_min] and [cross_max],
    rounded to the nearest integer. *)
Definition sample_bytes (i : Z) : Z :=
  round (exp (ln (IZR cross_min)
              + IZR i / IZR (steps - 1)
                * (ln (IZR cross_max) - ln (IZR cross_min)))).

(** The number of events charged for [b] bytes. *)
Definition event_count (b : Z) : Z :=
  Z.max 1 (math_ceil (IZR b / IZR bytes_per_event)).

Definition sample_point (i : Z) : ProgramPoint.t :=
  ProgramPoint.mk bytes_compute (sample_bytes i)
    (event_count (sample_bytes i)).

Definition point_intra (p : ProgramPoint.t) : R :=
  energy_intra (ProgramPoint.bytes_compute p) compute.

Definition point_cross (p : ProgramPoint.t) : R :=
  energy_cross (ProgramPoint.bytes_cross p) (ProgramPoint.events_cross p)
    boundary.

Definition point_total (p : ProgramPoint.t) : R :=
  point_intra p + point_cross p.

Definition point_energy (p : ProgramPoint.t)
  : ProgramPoint.t * R * R * R * R :=
  (p, point_intra p, point_cross p, point_total p,
   fraction_value (point_cross p) (point_total p)).

(** The elasticity of step [i]: [0] for the first step, the log-slope
    from the previous sample otherwise. *)
Definition sample_epsilon (i : nat) : R :=
  match i with
  | O => 0
  | S j =>
      let q := sample_point (Z.of_nat j) in
      let p := sample_point (Z.of_nat i) in
      slope_value (float (ProgramPoint.bytes_cross q)) (point_total q)
                  (float (ProgramPoint.bytes_cross p)) (point_total p)
  end.

(** The [i]-th record of the sweep. *)
Definition sweep_nth (i : nat) : ResultPoint.t :=
  let p := sample_point (Z.of_nat i) in
  ResultPoint.mk bytes_compute (sample_bytes (Z.of_nat i))
    (event_count (sample_bytes (Z.of_nat i)))
    (point_intra p) (point_cross p) (point_total p)
    (fraction_value (point_cross p) (point_total p))
    (sample_epsilon i).

(** The preconditions that [sweep] checks. *)
Definition sweep_valid : Prop :=
  (2 <= steps)%Z /\ (0 < cross_min)%Z /\ (0 < cross_max)%Z
  /\ (cross_min <= cross_max)%Z /\ (0 < bytes_per_event)%Z.

End SweepValue.

(** The crossing volume of the reduced schedule. *)
Definition reduced_bytes (cross_bytes : Z) (reduce_factor : R) : Z :=
  Z.max 1 (round (IZR cross_bytes / reduce_factor)).

(** The energy gain: the quotient of the totals, or [inf] when the reduced
    total is not positive. *)
Definition gain_value (base_total red_total : R) : xfloat :=
  if Rlt_b 0 red_total then Finite (base_total / red_total) else PInf.

(** The effective elasticity [ln(gain) / ln(reduce_factor)], where the
    logarithm of [inf] is [inf] and takes the sign of the divisor. *)
Definition effective_value (reduce_factor : R) (gain : xfloat) : xfloat :=
  if negb (Req_b reduce_factor 1) && xfloat_pos gain
  then match gain with
       | Finite g => Finite (ln g / ln reduce_factor)
       | PInf => if Rlt_b 1 reduce_factor then PInf else NInf
       | NInf => Finite 0
       end
  else Finite 0.

(** The record that the comparison returns. *)
Definition compare_value (bytes_compute cross_bytes bytes_per_event : Z)
    (reduce_factor : R) (compute : ComputeCost) (boundary : BoundaryCost)
  : CompareResult.t :=
  let base_ev := event_count bytes_per_event cross_bytes in
  let red_bytes := reduced_bytes cross_bytes reduce_factor in
  let red_ev := event_count bytes_per_event red_bytes in
  let base := ProgramPoint.mk bytes_compute cross_bytes base_ev in
  let red := ProgramPoint.mk bytes_compute red_bytes red_ev in
  let gain :=
    gain_value (point_total compute boundary base)
               (point_total compute boundary red) in
  CompareResult.mk
    (point_total compute boundary base) (point_intra compute base)
    (point_cross boundary base)
    (fraction_value (point_cross boundary base)
                    (point_total compute boundary base))
    (float cross_bytes) (float base_ev)
    (point_total compute boundary red) (point_intra compute red)
    (point_cross boundary red)
    (fraction_value (point_cross boundary red)
                    (point_total compute boundary red))
    (float red_bytes) (float red_ev)
    reduce_factor gain (effective_value reduce_factor gain).


(** ** The preset catalogs and the command line

    [DEFAULT_BOUNDARIES] and [DEFAULT_COMPUTE] of [core.py], and from
    [cli.py] the resolution of the costs and the extreme values that [main]
    reports after a sweep.  A dictionary with literal keys is an association
    list; [d[k]] raises [KeyError] on a key that is absent. *)

Definition DEFAULT_BOUNDARIES : list (string * BoundaryCost) :=
  [ ("analog"%string, mkBoundaryCost 0 3.20);
    ("memory"%string, mkBoundaryCost 0 1.25);
    ("chiplet"%string, mkBoundaryCost 0 5.00);
    ("hbm"%string, mkBoundaryCost 0 10.0);
    ("voltage"%string, mkBoundaryCost 0 0.80) ].

Definition DEFAULT_COMPUTE : list (string * ComputeCost) :=
  [ ("digital"%string, mkComputeCost 0.25);
    ("analog"%string, mkComputeCost 0.0001);
    ("lowv"%string, mkComputeCost 0.05) ].

(** The outcome of a computation that may only raise [KeyError]. *)
Inductive keyed (A : Type) : Type :=
| Found (a : A)
| KeyError (key : string).

Arguments Found {A} a.
Arguments KeyError {A} key.

(** [d[k]]. *)
Fixpoint dict_getitem {A : Type} (d : list (string * A)) (k : string)
  : keyed A :=
  match d with
  | [] => KeyError k
  | (k', v) :: d' => if String.eqb k k' then Found v else dict_getitem d' k
  end.

(** The attributes of the parsed arguments that [_resolve_costs] reads;
    an option that was not given is [None]. *)
Module Namespace.
Record t : Type := mk {
  boundary : string;
  compute : string;
  beta : option R;
  alpha : option R;
  compute_pj_per_byte : option R
}.
End Namespace.

Definition _resolve_costs (args : Namespace.t)
  : keyed (ComputeCost * BoundaryCost) :=
  match dict_getitem DEFAULT_BOUNDARIES (Namespace.boundary args) with
  | KeyError k => KeyError k
  | Found boundary =>
      match dict_getitem DEFAULT_COMPUTE (Namespace.compute args) with
      | KeyError k => KeyError k
      | Found compute =>
          let boundary :=
            match Namespace.beta args, Namespace.alpha args with
            | None, None => boundary
            | _, _ =>
                let alpha :=
                  match Namespace.alpha args with
                  | Some a => a
                  | None => alpha_pj_per_event boundary
                  end in
                let beta :=
                  match Namespace.beta args with
                  | Some b => b
                  | None => beta_pj_per_byte boundary
                  end in
                mkBoundaryCost alpha beta
            end in
          let compute :=
            match Namespace.compute_pj_per_byte args with
            | Some c => mkComputeCost c
            | None => compute
            end in
          Found (compute, boundary)
      end
  end.



(** The four extreme values of the summary of [main] after a sweep. *)
Module Summary.
Record t : Type := mk {
  crossing_fraction_min : R;
  crossing_fraction_max : R;
  epsilon_local_min : R;
  epsilon_local_max : R
}.
End Summary.


(** ** The range on which values are stated

    A double holds every int up to [2^53] exactly, and the energies of the
    source stay finite as long as the counts are at most [2^53] and the
    costs at most [2^500].  What the exact reading says on the value of a
    fraction, of a gain or of an elasticity is stated on this range. *)

Definition count_limit : Z := 2 ^ 53.

Definition cost_limit : R := IZR (2 ^ 500).

Definition moderate_costs (compute : ComputeCost) (boundary : BoundaryCost)
  : Prop :=
  0 <= pj_per_byte compute <= cost_limit
  /\ 0 <= alpha_pj_per_event boundary <= cost_limit
  /\ 0 <= beta_pj_per_byte boundary <= cost_limit.

(** ** The binary64 reading of the source

    The same functions, on doubles. *)

Module B64.
Local Open Scope Z_scope.

(** A double. *)
Definition f64 : Type := spec_float.

(** The format: 53 bits of precision, exponents below 1024. *)
Definition prec : Z := 53.
Definition emax : Z := 1024.

(** The four operations, rounded to nearest, ties to even. *)
Definition fadd : f64 -> f64 -> f64 := SFadd prec emax.
Definition fsub : f64 -> f64 -> f64 := SFsub prec emax.
Definition fmul : f64 -> f64 -> f64 := SFmul prec emax.
Definition fdiv : f64 -> f64 -> f64 := SFdiv prec emax.
(** [<=], [<] and [==]: false as soon as one side is a NaN. *)
Definition fle : f64 -> f64 -> bool := SFleb.
Definition flt : f64 -> f64 -> bool := SFltb.
Definition feq : f64 -> f64 -> bool := SFeqb.

Definition zero : f64 := S754_zero false.
Definition one : f64 := S754_finite false 4503599627370496 (-52).
Definition two : f64 := S754_finite false 4503599627370496 (-51).
Definition half : f64 := S754_finite false 4503599627370496 (-53).
Definition inf : f64 := S754_infinity false.

Definition is_nan (x : f64) : bool :=
  match x with S754_nan => true | _ => false end.
Definition is_inf (x : f64) : bool :=
  match x with S754_infinity _ => true | _ => false end.
Definition is_finite (x : f64) : bool :=
  match x with S754_zero _ | S754_finite _ _ _ => true | _ => false end.

(** An int as an unrounded operand of a division. *)
Definition exact_int (n : Z) : f64 :=
  match n with
  | Z0 => S754_zero false
  | Zpos p => S754_finite false p 0
  | Zneg p => S754_finite true p 0
  end.

(** [float(n)] for an int [n]: the nearest double, [OverflowError] when
    there is none. *)
Definition float (n : Z) : result f64 :=
  let x := binary_normalize prec emax n 0 false in
  if is_inf x then Raise OverflowError else Ok x.

(** [a / b] on two ints: the quotient, rounded once. *)
Definition int_truediv (a b : Z) : result f64 :=
  if b =? 0 then Raise ZeroDivisionError
  else
    let x := fdiv (exact_int a) (exact_int b) in
    if is_inf x then Raise OverflowError else Ok x.

(** [x / y] on two floats. *)
Definition truediv (x y : f64) : result f64 :=
  match y with
  | S754_zero _ => Raise ZeroDivisionError
  | _ => Ok (fdiv x y)
  end.

(** [int(round(x))]: the nearest integer, a tie going to the even
    neighbour. *)
Definition round (x : f64) : result Z :=
  match x with
  | S754_nan => Raise (ValueError "cannot convert float NaN to integer")
  | S754_infinity _ => Raise OverflowError
  | S754_zero _ => Ok 0
  | S754_finite s m e =>
      Ok (cond_Zopp s
            (if 0 <=? e then Zpos m * 2 ^ e
             else
               let d := 2 ^ (- e) in
               let q := Zpos m / d in
               match 2 * (Zpos m mod d) ?= d with
               | Lt => q
               | Gt => q + 1
               | Eq => if Z.even q then q else q + 1
               end))
  end.

(** [int(math.ceil(x))]. *)
Definition math_ceil (x : f64) : result Z :=
  match x with
  | S754_nan => Raise (ValueError "cannot convert float NaN to integer")
  | S754_infinity _ => Raise OverflowError
  | S754_zero _ => Ok 0
  | S754_finite s m e =>
      Ok (if 0 <=? e then cond_Zopp s (Zpos m * 2 ^ e)
          else - ((- cond_Zopp s (Zpos m)) / 2 ^ (- e)))
  end.

(** The two functions that the source takes from the C library. *)
Record Libm : Type := mkLibm {
  libm_log : f64 -> f64;
  libm_exp : f64 -> f64
}.

(** [math.log(x)] for a float [x]: CPython turns a result that is not
    finite, for a finite argument, into a [ValueError]. *)
Definition math_log (L : Libm) (x : f64) : result f64 :=
  match x with
  | S754_nan => Ok S754_nan
  | S754_infinity false => Ok (S754_infinity false)
  | S754_finite false _ _ =>
      let r := libm_log L x in
      if is_nan r || is_inf r then Raise (ValueError "math domain error")
      else Ok r
  | _ => Raise (ValueError "math domain error")
  end.

(** The mantissa in [[0.5, 1)] and the exponent of a positive int, as
    CPython computes them for an int too large for a double. *)
Definition long_frexp (n : Z) : f64 * Z :=
  let bits := Z.log2 n + 1 in
  let x := binary_normalize prec emax n (- bits) false in
  if feq x one then (half, bits + 1) else (x, bits).

(** [math.log(n)] for an int [n]. *)
Definition math_log_int (L : Libm) (n : Z) : result f64 :=
  if n <=? 0 then Raise (ValueError "math domain error")
  else
    match float n with
    | Ok x => Ok (libm_log L x)
    | Raise _ =>
        let '(x, e) := long_frexp n in
        Ok (fadd (libm_log L x)
                 (fmul (libm_log L two) (binary_normalize prec emax e 0 false)))
    end.

(** [math.exp(x)]. *)
Definition math_exp (L : Libm) (x : f64) : result f64 :=
  let r := libm_exp L x in
  if is_nan r && negb (is_nan x) then Raise (ValueError "math domain error")
  else if is_inf r && is_finite x then Raise OverflowError
  else Ok r.

Record BoundaryCost : Type := mkBoundaryCost {
  alpha_pj_per_event : f64;
  beta_pj_per_byte : f64
}.

Record ComputeCost : Type := mkComputeCost {
  pj_per_byte : f64
}.

Module ResultPoint.
Record t : Type := mk {
  bytes_compute : Z;
  bytes_cross : Z;
  events_cross : Z;
  c_intra_pj : f64;
  c_cross_pj : f64;
  c_total_pj : f64;
  crossing_fraction : f64;
  epsilon_local : f64
}.
End ResultPoint.

Definition energy_intra (bytes_compute : Z) (compute : ComputeCost)
  : result f64 :=
  x <- float bytes_compute ;;
  Ok (fmul x (pj_per_byte compute)).

Definition energy_cross (bytes_cross events_cross : Z)
    (boundary : BoundaryCost) : result f64 :=
  e <- float events_cross ;;
  b <- float bytes_cross ;;
  Ok (fadd (fmul e (alpha_pj_per_event boundary))
           (fmul b (beta_pj_per_byte boundary))).

Definition crossing_fraction (c_cross c_total : f64) : result f64 :=
  if fle c_total zero then Ok zero
  else truediv c_cross c_total.

Definition log_slope (L : Libm) (x1 y1 x2 y2 : f64) : result f64 :=
  if fle x1 zero || fle x2 zero || fle y1 zero || fle y2 zero || feq x1 x2
  then Ok zero
  else
    ly2 <- math_log L y2 ;;
    ly1 <- math_log L y1 ;;
    lx2 <- math_log L x2 ;;
    lx1 <- math_log L x1 ;;
    truediv (fsub ly2 ly1) (fsub lx2 lx1).

Definition run_point (p : ProgramPoint.t) (compute : ComputeCost)
    (boundary : BoundaryCost) : result (f64 * f64 * f64 * f64) :=
  c_intra <- energy_intra (ProgramPoint.bytes_compute p) compute ;;
  c_cross <- energy_cross (ProgramPoint.bytes_cross p)
               (ProgramPoint.events_cross p) boundary ;;
  let c_total := fadd c_intra c_cross in
  frac <- crossing_fraction c_cross c_total ;;
  Ok (c_intra, c_cross, c_total, frac).

(** One iteration of the sampling loop of [sweep]. *)
Definition sweep_sample (L : Libm) (bytes_compute steps bytes_per_event : Z)
    (log_min log_max : f64) (i : Z) : result ProgramPoint.t :=
  t <- int_truediv i (steps - 1) ;;
  e <- math_exp L (fadd log_min (fmul t (fsub log_max log_min))) ;;
  b <- round e ;;
  q <- int_truediv b bytes_per_event ;;
  c <- math_ceil q ;;
  let ev := Z.max 1 c in
  Ok (ProgramPoint.mk bytes_compute b ev).

(** One iteration of the evaluation loop of [sweep]. *)
Definition sweep_energy (compute : ComputeCost) (boundary : BoundaryCost)
    (p : ProgramPoint.t) : result (ProgramPoint.t * f64 * f64 * f64 * f64) :=
  '(c_intra, c_cross, c_total, frac) <- run_point p compute boundary ;;
  Ok (p, c_intra, c_cross, c_total, frac).

(** One iteration of the elasticity loop of [sweep]. *)
Definition sweep_result (L : Libm)
    (energies : list (ProgramPoint.t * f64 * f64 * f64 * f64))
    (ie : nat * (ProgramPoint.t * f64 * f64 * f64 * f64))
  : result ResultPoint.t :=
  let '(i, (p, c_intra, c_cross, c_total, frac)) := ie in
  eps <- (if Nat.eqb i 0 then Ok zero
          else
            '(p_prev, _, _, c_total_prev, _) <- getitem energies (i - 1) ;;
            x1 <- float (ProgramPoint.bytes_cross p_prev) ;;
            x2 <- float (ProgramPoint.bytes_cross p) ;;
            log_slope L x1 c_total_prev x2 c_total) ;;
  Ok (ResultPoint.mk (ProgramPoint.bytes_compute p)
        (ProgramPoint.bytes_cross p) (ProgramPoint.events_cross p)
        c_intra c_cross c_total frac eps).

Definition sweep (L : Libm)
    (bytes_compute cross_min cross_max steps bytes_per_event : Z)
    (compute : ComputeCost) (boundary : BoundaryCost)
  : result (list ResultPoint.t) :=
  if steps <? 2 then Raise (ValueError "steps must be >= 2")
  else if (cross_min <=? 0) || (cross_max <=? 0) || (cross_min >? cross_max)
  then Raise (ValueError "Require 0 < cross_min <= cross_max")
  else if bytes_per_event <=? 0
  then Raise (ValueError "bytes_per_event must be > 0")
  else
    log_min <- math_log_int L cross_min ;;
    log_max <- math_log_int L cross_max ;;
    points <- for_each
                (sweep_sample L bytes_compute steps bytes_per_event
                   log_min log_max)
                (range steps) ;;
    energies <- for_each (sweep_energy compute boundary) points ;;
    results <- for_each (sweep_result L energies) (enumerate energies) ;;
    Ok results.

Module CompareResult.
Record t : Type := mk {
  baseline_total_pj : f64;
  baseline_intra_pj : f64;
  baseline_cross_pj : f64;
  baseline_cross_frac : f64;
  baseline_cross_bytes : f64;
  baseline_events : f64;
  reduced_total_pj : f64;
  reduced_intra_pj : f64;
  reduced_cross_pj : f64;
  reduced_cross_frac : f64;
  reduced_cross_bytes : f64;
  reduced_events : f64;
  reduce_factor : f64;
  energy_gain_x : f64;
  elasticity_effective : f64
}.
End CompareResult.

Definition compare_baseline_vs_reduced (L : Libm)
    (bytes_compute cross_bytes bytes_per_event : Z) (reduce_factor : f64)
    (compute : ComputeCost) (boundary : BoundaryCost)
  : result CompareResult.t :=
  if cross_bytes <=? 0 then Raise (ValueError "cross_bytes must be > 0")
  else if bytes_per_event <=? 0
  then Raise (ValueError "bytes_per_event must be > 0")
  else if fle reduce_factor zero
  then Raise (ValueError "reduce_factor must be > 0")
  else
    qb <- int_truediv cross_bytes bytes_per_event ;;
    cb <- math_ceil qb ;;
    let base_ev := Z.max 1 cb in
    xb <- float cross_bytes ;;
    qr <- truediv xb reduce_factor ;;
    rr <- round qr ;;
    let red_bytes := Z.max 1 rr in
    qe <- int_truediv red_bytes bytes_per_event ;;
    ce <- math_ceil qe ;;
    let red_ev := Z.max 1 ce in
    let base := ProgramPoint.mk bytes_compute cross_bytes base_ev in
    let red := ProgramPoint.mk bytes_compute red_bytes red_ev in
    '(base_intra, base_cross, base_total, base_frac) <-
       run_point base compute boundary ;;
    '(red_intra, red_cross, red_total, red_frac) <-
       run_point red compute boundary ;;
    gain <- (if flt zero red_total then truediv base_total red_total
             else Ok inf) ;;
    eff_eps <- (if negb (feq reduce_factor one) && flt zero gain
                then
                  lg <- math_log L gain ;;
                  lr <- math_log L reduce_factor ;;
                  truediv lg lr
                else Ok zero) ;;
    f_cross_bytes <- float cross_bytes ;;
    f_base_ev <- float base_ev ;;
    f_red_bytes <- float red_bytes ;;
    f_red_ev <- float red_ev ;;
    Ok (CompareResult.mk base_total base_intra base_cross base_frac
          f_cross_bytes f_base_ev
          red_total red_intra red_cross red_frac
          f_red_bytes f_red_ev
          reduce_factor gain eff_eps).

End B64.

(** *** What the statements on [B64] speak of *)

(** The double nearest to [ln 2]. *)
Definition ln2 : B64.f64 := S754_finite false 6243314768165359 (-53).

(** A library of which only the values at [1.0], [2.0] and [4.0] are
    known: [log(1.0) = 0.0], [log(2.0) = ln2], [log(4.0) = 2 * ln2],
    [exp(0.0) = 1.0] and [exp(ln2) = 2.0], as every correctly rounding
    library returns them; it answers NaN everywhere else. *)
Definition libm_on_powers_of_two : B64.Libm :=
  B64.mkLibm
    (fun x => if B64.feq x B64.one then B64.zero
              else if B64.feq x B64.two then ln2
              else if B64.feq x (B64.fmul B64.two B64.two)
                   then B64.fmul B64.two ln2
              else S754_nan)
    (fun x => if B64.feq x B64.zero then B64.one
              else if B64.feq x ln2 then B64.two else S754_nan).

(** Costs of [1.0] per byte, inside and across, and no cost per event. *)
Definition unit_compute : B64.ComputeCost := B64.mkComputeCost B64.one.

Definition unit_boundary : B64.BoundaryCost :=
  B64.mkBoundaryCost B64.zero B64.one.





Definition d0_0001 : B64.f64 := S754_finite false 7378697629483821 (-66).

Definition d10 : B64.f64 := S754_finite false 5629499534213120 (-49).




(** The preconditions of the comparison; [reduce_factor <= 0] is the
    comparison of doubles, false of a NaN. *)
Definition compare_precondition (cross_bytes bytes_per_event : Z)
    (reduce_factor : B64.f64) : Prop :=
  (0 < cross_bytes)%Z /\ (0 < bytes_per_event)%Z
  /\ B64.fle reduce_factor B64.zero = false.

(** The exceptions that the three checks of the comparison raise. *)
Definition compare_validation_error (e : exn) : Prop :=
  e = ValueError "cross_bytes must be > 0"
  \/ e = ValueError "bytes_per_event must be > 0"
  \/ e = ValueError "reduce_factor must be > 0".

(** The exceptions that the arithmetic of the source raises. *)
Definition arithmetic_error (e : exn) : Prop :=
  e = OverflowError
  \/ e = ZeroDivisionError
  \/ e = ValueError "math domain error"
  \/ e = ValueError "cannot convert float NaN to integer".





(** * Properties *)

(** ** The range of the exact reading *)

Lemma cost_limit_large : 1000000 <= cost_limit.
Proof.
  unfold cost_limit. apply IZR_le. vm_compute. discriminate.
Qed.

Lemma moderate_costs_nonneg (compute : ComputeCost)
    (boundary : BoundaryCost) :
  moderate_costs compute boundary ->
  0 <= pj_per_byte compute /\ 0 <= alpha_pj_per_event boundary
  /\ 0 <= beta_pj_per_byte boundary.
Proof.
  intros ([H1 _] & [H2 _] & [H3 _]). repeat split; assumption.
Qed.

(** ** The boolean comparisons reflect the order of the reals *)

Lemma Rle_b_true (x y : R) : Rle_b x y = true <-> x <= y.
Proof. unfold Rle_b; destruct (Rle_dec x y); split; auto; discriminate. Qed.

Lemma Rle_b_false (x y : R) : Rle_b x y = false <-> y < x.
Proof.
  unfold Rle_b; destruct (Rle_dec x y); split; intros;
    try discriminate; try lra; auto.
Qed.

Lemma Rlt_b_true (x y : R) : Rlt_b x y = true <-> x < y.
Proof. unfold Rlt_b; destruct (Rlt_dec x y); split; auto; discriminate. Qed.

Lemma Rlt_b_false (x y : R) : Rlt_b x y = false <-> y <= x.
Proof.
  unfold Rlt_b; destruct (Rlt_dec x y); split; intros;
    try discriminate; try lra; auto.
Qed.

Lemma Req_b_true (x y : R) : Req_b x y = true <-> x = y.
Proof. unfold Req_b; destruct (Req_dec_T x y); split; auto; discriminate. Qed.

Lemma Req_b_false (x y : R) : Req_b x y = false <-> x <> y.
Proof.
  unfold Req_b; destruct (Req_dec_T x y); split; intros; auto;
    try discriminate; contradiction.
Qed.

(** Decide every float comparison that occurs in the goal. *)
Ltac cmp_cases :=
  repeat match goal with
    | |- context [Rle_b ?x ?y] =>
        let E := fresh "E" in
        destruct (Rle_b x y) eqn:E;
        [apply Rle_b_true in E | apply Rle_b_false in E]
    | |- context [Rlt_b ?x ?y] =>
        let E := fresh "E" in
        destruct (Rlt_b x y) eqn:E;
        [apply Rlt_b_true in E | apply Rlt_b_false in E]
    | |- context [Req_b ?x ?y] =>
        let E := fresh "E" in
        destruct (Req_b x y) eqn:E;
        [apply Req_b_true in E | apply Req_b_false in E]
    end.

(** ** The partial primitives *)

Lemma truediv_ok (x y : R) : y <> 0 -> truediv x y = Ok (x / y).
Proof. intros H; unfold truediv; cmp_cases; [contradiction | reflexivity]. Qed.

Lemma math_log_ok (x : R) : 0 < x -> math_log x = Ok (ln x).
Proof. intros H; unfold math_log; cmp_cases; [lra | reflexivity]. Qed.

Lemma ln_diff_nonzero (x1 x2 : R) :
  0 < x1 -> 0 < x2 -> x1 <> x2 -> ln x2 - ln x1 <> 0.
Proof.
  intros H1 H2 Hne Hz. apply Hne. apply ln_inv; auto; lra.
Qed.

Lemma ln_monotone (x y : R) : 0 < x -> x <= y -> ln x <= ln y.
Proof.
  intros Hx [Hlt | ->]; [left; apply ln_increasing; auto | right; reflexivity].
Qed.

Lemma exp_monotone (x y : R) : x <= y -> exp x <= exp y.
Proof.
  intros [Hlt | ->]; [left; apply exp_increasing; auto | right; reflexivity].
Qed.

(** ** Rounding *)

Lemma round_float (z : Z) : round (float z) = z.
Proof.
  unfold round, float. rewrite ZfloorZ.
  replace (IZR z - IZR z) with 0 by ring.
  cmp_cases; try reflexivity; exfalso; lra.
Qed.

Lemma round_bounds (x : R) : IZR (Zfloor x) <= IZR (round x) <= IZR (Zfloor x) + 1.
Proof.
  unfold round. cmp_cases; try destruct (Z.even (Zfloor x));
    rewrite ?plus_IZR; simpl; lra.
Qed.

Lemma round_monotone (x y : R) : x <= y -> (round x <= round y)%Z.
Proof.
  intros Hxy.
  pose proof (Zfloor_le x y Hxy) as Hf.
  destruct (Z.eq_dec (Zfloor x) (Zfloor y)) as [Heq | Hne].
  - unfold round. rewrite Heq.
    cmp_cases; try destruct (Z.even (Zfloor y)); try lia; exfalso; lra.
  - assert (Hlt : (Zfloor x + 1 <= Zfloor y)%Z) by lia.
    apply le_IZR.
    pose proof (round_bounds x) as [_ Hx].
    pose proof (round_bounds y) as [Hy _].
    apply IZR_le in Hlt. rewrite plus_IZR in Hlt. simpl in Hlt. lra.
Qed.

(** ** Ceiling of a quotient *)

Lemma math_ceil_monotone (x y : R) : x <= y -> (math_ceil x <= math_ceil y)%Z.
Proof. apply Zceil_le. Qed.

(** ** The cost model never raises: its values in closed form *)

Lemma crossing_fraction_value (c_cross c_total : R) :
  crossing_fraction c_cross c_total = Ok (fraction_value c_cross c_total).
Proof.
  unfold crossing_fraction, fraction_value.
  cmp_cases; try reflexivity; try (exfalso; lra).
  apply truediv_ok; lra.
Qed.

Lemma log_slope_positive (x1 y1 x2 y2 : R) :
  0 < x1 -> 0 < x2 -> 0 < y1 -> 0 < y2 -> x1 <> x2 ->
  log_slope x1 y1 x2 y2 = Ok ((ln y2 - ln y1) / (ln x2 - ln x1)).
Proof.
  intros Hx1 Hx2 Hy1 Hy2 Hne. unfold log_slope.
  cmp_cases; simpl; try (exfalso; lra); try contradiction.
  rewrite !math_log_ok by assumption. simpl.
  apply truediv_ok. apply ln_diff_nonzero; assumption.
Qed.

Lemma log_slope_degenerate (x1 y1 x2 y2 : R) :
  x1 <= 0 \/ x2 <= 0 \/ y1 <= 0 \/ y2 <= 0 \/ x1 = x2 ->
  log_slope x1 y1 x2 y2 = Ok 0.
Proof.
  intros H. unfold log_slope.
  cmp_cases; simpl; try reflexivity.
  exfalso. destruct H as [H | [H | [H | [H | H]]]]; try lra; contradiction.
Qed.

Lemma log_slope_value (x1 y1 x2 y2 : R) :
  log_slope x1 y1 x2 y2 = Ok (slope_value x1 y1 x2 y2).
Proof.
  unfold slope_value.
  cmp_cases; simpl;
    try (apply log_slope_positive; assumption);
    apply log_slope_degenerate; subst; auto 6.
Qed.

Lemma run_point_value (p : ProgramPoint.t) (compute : ComputeCost)
    (boundary : BoundaryCost) :
  run_point p compute boundary =
  let c_intra := energy_intra (ProgramPoint.bytes_compute p) compute in
  let c_cross :=
    energy_cross (ProgramPoint.bytes_cross p) (ProgramPoint.events_cross p)
      boundary in
  Ok (c_intra, c_cross, c_intra + c_cross,
      fraction_value c_cross (c_intra + c_cross)).
Proof.
  unfold run_point. cbv zeta. rewrite crossing_fraction_value. reflexivity.
Qed.

(** ** The unit tests of the cost model, replayed on the embedding *)

Example test_energy_intra_basic :
  energy_intra 100 (mkComputeCost 0.25) = 25.
Proof. unfold energy_intra, float; simpl; lra. Qed.

Example test_energy_intra_zero :
  energy_intra 0 (mkComputeCost 0.25) = 0.
Proof. unfold energy_intra, float; simpl; lra. Qed.

Example test_energy_cross_beta_only :
  energy_cross 1000 4 (mkBoundaryCost 0 3.2) = 3200.
Proof. unfold energy_cross, float; simpl; lra. Qed.

Example test_energy_cross_alpha_only :
  energy_cross 1000 4 (mkBoundaryCost 100 0) = 400.
Proof. unfold energy_cross, float; simpl; lra. Qed.

Example test_energy_cross_alpha_and_beta :
  energy_cross 10 3 (mkBoundaryCost 2 1) = 16.
Proof. unfold energy_cross, float; simpl; lra. Qed.

Example test_log_slope_guards :
  log_slope 0 1 2 3 = Ok 0 /\ log_slope 1 0 2 3 = Ok 0
  /\ log_slope 1 1 1 2 = Ok 0.
Proof.
  repeat split; apply log_slope_degenerate;
    [left; lra | right; right; left; lra | repeat right; reflexivity].
Qed.

(** C7, as the claim states it, fails: the quotient is returned as it is,
    and [crossing_fraction(2, 1)] is [2], outside of [[0,1]]. *)
Lemma crossing_fraction_not_bounded :
  crossing_fraction 2 1 = Ok 2 /\ ~ (0 <= 2 <= 1).
Proof.
  split.
  - rewrite crossing_fraction_value. unfold fraction_value.
    cmp_cases; [f_equal; field | exfalso; lra].
  - lra.
Qed.

(** C7, amended: [crossing_fraction] always returns a value: the quotient
    [c_cross / c_total] when [c_total > 0], and exactly [0] when
    [c_total <= 0]; the value is in [[0,1]] when [0 <= c_cross <= c_total];
    [crossing_fraction(0,0) = 0], [crossing_fraction(x,x) = 1] for [x > 0],
    and [crossing_fraction(50,100) = 0.5]. *)
Theorem crossing_fraction_spec (c_cross c_total : R) :
  (exists v, crossing_fraction c_cross c_total = Ok v)
  /\ (0 < c_total ->
      crossing_fraction c_cross c_total = Ok (c_cross / c_total))
  /\ (0 <= c_cross <= c_total ->
      exists v, crossing_fraction c_cross c_total = Ok v /\ 0 <= v <= 1)
  /\ (c_total <= 0 -> crossing_fraction c_cross c_total = Ok 0)
  /\ crossing_fraction 0 0 = Ok 0
  /\ (forall x, 0 < x -> crossing_fraction x x = Ok 1)
  /\ crossing_fraction 50 100 = Ok 0.5.
Proof.
  repeat split.
  - eexists. apply crossing_fraction_value.
  - intros H. rewrite crossing_fraction_value. unfold fraction_value.
    cmp_cases; [reflexivity | exfalso; lra].
  - intros [H0 Hle]. eexists. split; [apply crossing_fraction_value |].
    unfold fraction_value. cmp_cases; [| lra].
    split.
    + apply Rmult_le_pos; [lra | left; apply Rinv_0_lt_compat; lra].
    + apply Rmult_le_reg_r with c_total; [lra |].
      unfold Rdiv. rewrite Rmult_assoc, Rinv_l by lra. lra.
  - intros H. rewrite crossing_fraction_value. unfold fraction_value.
    cmp_cases; [exfalso; lra | reflexivity].
  - rewrite crossing_fraction_value. unfold fraction_value.
    cmp_cases; [exfalso; lra | reflexivity].
  - intros x Hx. rewrite crossing_fraction_value. unfold fraction_value.
    cmp_cases; [f_equal; field; lra | exfalso; lra].
  - rewrite crossing_fraction_value. unfold fraction_value.
    cmp_cases; [f_equal; lra | exfalso; lra].
Qed.

Lemma crossing_fraction_spec_witness :
  crossing_fraction 3 4 = Ok (3 / 4)
  /\ (exists v, crossing_fraction 1 4 = Ok v /\ 0 <= v <= 1)
  /\ crossing_fraction 3 (-1) = Ok 0.
Proof.
  split; [| split].
  - apply (proj1 (proj2 (crossing_fraction_spec 3 4))). lra.
  - apply (proj1 (proj2 (proj2 (crossing_fraction_spec 1 4)))). lra.
  - apply (proj1 (proj2 (proj2 (proj2 (crossing_fraction_spec 3 (-1)))))).
    lra.
Defined.

(** ** The sweep in closed form *)

Lemma for_each_map {A B : Type} (f : A -> result B) (g : A -> B)
    (xs : list A) :
  (forall x, In x xs -> f x = Ok (g x)) ->
  for_each f xs = Ok (map g xs).
Proof.
  induction xs as [| x xs IH]; intros H; simpl.
  - reflexivity.
  - rewrite (H x) by (left; reflexivity). simpl.
    rewrite IH by (intros y Hy; apply H; right; exact Hy).
    reflexivity.
Qed.

Lemma sweep_sample_value (bytes_compute cross_min cross_max steps
    bytes_per_event i : Z) :
  (2 <= steps)%Z -> (0 < bytes_per_event)%Z ->
  sweep_sample bytes_compute steps bytes_per_event
    (ln (float cross_min)) (ln (float cross_max)) i
  = Ok (sample_point bytes_compute cross_min cross_max steps
          bytes_per_event i).
Proof.
  intros Hs Hb. unfold sweep_sample, float.
  rewrite truediv_ok by (apply not_0_IZR; lia). simpl.
  rewrite truediv_ok by (apply not_0_IZR; lia). simpl.
  reflexivity.
Qed.

Lemma sweep_energy_value (compute : ComputeCost) (boundary : BoundaryCost)
    (p : ProgramPoint.t) :
  sweep_energy compute boundary p = Ok (point_energy compute boundary p).
Proof.
  unfold sweep_energy. rewrite run_point_value. reflexivity.
Qed.

Lemma sweep_result_value (energies : list (ProgramPoint.t * R * R * R * R))
    (i : nat) (e : ProgramPoint.t * R * R * R * R) :
  (i < List.length energies)%nat ->
  sweep_result energies (i, e) = Ok (result_value energies (i, e)).
Proof.
  intros Hi. destruct e as [[[[p c_intra] c_cross] c_total] frac].
  unfold sweep_result, result_value.
  destruct i as [| j]; simpl Nat.eqb; cbv iota.
  - reflexivity.
  - replace (S j - 1)%nat with j by lia. unfold getitem.
    destruct (nth_error energies j) as [[[[[q ?] ?] ct] ?] |] eqn:Hn.
    + simpl. rewrite log_slope_value. reflexivity.
    + apply nth_error_None in Hn. lia.
Qed.

Lemma enumerate_index {A : Type} (xs : list A) (i : nat) (x : A) :
  In (i, x) (enumerate xs) -> (i < List.length xs)%nat.
Proof.
  intros H. apply in_combine_l in H. apply in_seq in H. lia.
Qed.

Lemma enumerate_map_seq {A : Type} (f : nat -> A) (n : nat) :
  enumerate (map f (seq 0 n)) = map (fun i => (i, f i)) (seq 0 n).
Proof.
  unfold enumerate. rewrite length_map, length_seq.
  generalize 0%nat. induction n as [| n IH]; intros k; simpl.
  - reflexivity.
  - rewrite IH. reflexivity.
Qed.

Lemma nth_error_map_seq {A : Type} (f : nat -> A) (n i : nat) :
  (i < n)%nat -> nth_error (map f (seq 0 n)) i = Some (f i).
Proof.
  intros Hi. rewrite nth_error_map, nth_error_seq.
  destruct (Nat.ltb_spec i n); [reflexivity | lia].
Qed.

(** On valid arguments [sweep] returns, and what it returns is the list of
    the records [sweep_nth 0], ..., [sweep_nth (steps - 1)]. *)
Lemma sweep_value (bytes_compute cross_min cross_max steps bytes_per_event : Z)
    (compute : ComputeCost) (boundary : BoundaryCost) :
  sweep_valid cross_min cross_max steps bytes_per_event ->
  sweep bytes_compute cross_min cross_max steps bytes_per_event
    compute boundary
  = Ok (map (sweep_nth bytes_compute cross_min cross_max steps
               bytes_per_event compute boundary)
          (seq 0 (Z.to_nat steps))).
Proof.
  intros (Hs & Hmin & Hmax & Hle & Hb). unfold sweep.
  replace (steps <? 2)%Z with false by (symmetry; apply Z.ltb_ge; lia).
  replace (cross_min <=? 0)%Z with false by (symmetry; apply Z.leb_gt; lia).
  replace (cross_max <=? 0)%Z with false by (symmetry; apply Z.leb_gt; lia).
  replace (cross_min >? cross_max)%Z with false
    by (symmetry; rewrite Z.gtb_ltb; apply Z.ltb_ge; lia).
  replace (bytes_per_event <=? 0)%Z with false
    by (symmetry; apply Z.leb_gt; lia).
  simpl orb. cbv iota.
  rewrite !math_log_ok by (apply IZR_lt; lia). simpl bind.
  rewrite (for_each_map _
             (sample_point bytes_compute cross_min cross_max steps
                bytes_per_event))
    by (intros i _; apply sweep_sample_value; assumption).
  simpl bind.
  rewrite (for_each_map _ (point_energy compute boundary))
    by (intros p _; apply sweep_energy_value).
  simpl bind. unfold range. rewrite !map_map.
  set (E := fun i : nat =>
              point_energy compute boundary
                (sample_point bytes_compute cross_min cross_max steps
                   bytes_per_event (Z.of_nat i))).
  set (n := Z.to_nat steps).
  rewrite (for_each_map _ (result_value (map E (seq 0 n)))).
  - simpl bind. f_equal. rewrite enumerate_map_seq, map_map.
    apply map_ext_in. intros i Hi. apply in_seq in Hi.
    unfold result_value, E at 2, point_energy, sweep_nth. simpl.
    f_equal. destruct i as [| j]; [reflexivity |].
    rewrite nth_error_map_seq by lia.
    unfold E, point_energy, sample_epsilon. reflexivity.
  - intros [i e] Hie. apply sweep_result_value.
    apply enumerate_index with e. exact Hie.
Qed.

Lemma sweep_invalid_raises (bytes_compute cross_min cross_max steps
    bytes_per_event : Z) (compute : ComputeCost) (boundary : BoundaryCost) :
  (steps < 2 \/ cross_min <= 0 \/ cross_max <= 0 \/ cross_min > cross_max
   \/ bytes_per_event <= 0)%Z ->
  exists msg,
    sweep bytes_compute cross_min cross_max steps bytes_per_event
      compute boundary = Raise (ValueError msg).
Proof.
  intros H. unfold sweep.
  destruct (Z.ltb_spec steps 2); [eexists; reflexivity |].
  destruct (Z.leb_spec cross_min 0); [eexists; reflexivity |].
  destruct (Z.leb_spec cross_max 0); [eexists; reflexivity |].
  rewrite Z.gtb_ltb.
  destruct (Z.ltb_spec cross_max cross_min); [eexists; reflexivity |].
  destruct (Z.leb_spec bytes_per_event 0); [eexists; reflexivity |].
  exfalso; lia.
Qed.

Lemma sweep_valid_dec (cross_min cross_max steps bytes_per_event : Z) :
  sweep_valid cross_min cross_max steps bytes_per_event
  \/ (steps < 2 \/ cross_min <= 0 \/ cross_max <= 0 \/ cross_min > cross_max
      \/ bytes_per_event <= 0)%Z.
Proof. unfold sweep_valid. lia. Qed.

(** A sweep that returns was given valid arguments. *)
Lemma sweep_ok_valid (bytes_compute cross_min cross_max steps
    bytes_per_event : Z) (compute : ComputeCost) (boundary : BoundaryCost)
    (rs : list ResultPoint.t) :
  sweep bytes_compute cross_min cross_max steps bytes_per_event
    compute boundary = Ok rs ->
  sweep_valid cross_min cross_max steps bytes_per_event.
Proof.
  intros Hrs.
  destruct (sweep_valid_dec cross_min cross_max steps bytes_per_event)
    as [Hv | Hi]; [exact Hv |].
  destruct (sweep_invalid_raises bytes_compute _ _ _ _ compute boundary Hi)
    as [msg Hm].
  rewrite Hm in Hrs. discriminate.
Qed.

(** ** The sampled crossing volumes *)

Lemma sample_bytes_first (cross_min cross_max steps : Z) :
  (0 < cross_min)%Z -> sample_bytes cross_min cross_max steps 0 = cross_min.
Proof.
  intros Hmin. unfold sample_bytes.
  replace (ln (IZR cross_min)
           + 0 / IZR (steps - 1) * (ln (IZR cross_max) - ln (IZR cross_min)))
    with (ln (IZR cross_min)) by (unfold Rdiv; ring).
  rewrite exp_ln by (apply IZR_lt; lia). apply round_float.
Qed.

Lemma sample_bytes_last (cross_min cross_max steps : Z) :
  (2 <= steps)%Z -> (0 < cross_max)%Z ->
  sample_bytes cross_min cross_max steps (steps - 1) = cross_max.
Proof.
  intros Hs Hmax. unfold sample_bytes.
  replace (ln (IZR cross_min)
           + IZR (steps - 1) / IZR (steps - 1)
             * (ln (IZR cross_max) - ln (IZR cross_min)))
    with (ln (IZR cross_max)) by (field; apply not_0_IZR; lia).
  rewrite exp_ln by (apply IZR_lt; lia). apply round_float.
Qed.

Lemma sample_bytes_monotone (cross_min cross_max steps i j : Z) :
  (2 <= steps)%Z -> (0 < cross_min)%Z -> (cross_min <= cross_max)%Z ->
  (i <= j)%Z ->
  (sample_bytes cross_min cross_max steps i
   <= sample_bytes cross_min cross_max steps j)%Z.
Proof.
  intros Hs Hmin Hle Hij. unfold sample_bytes.
  apply round_monotone, exp_monotone.
  assert (Hd : 0 < IZR (steps - 1)) by (apply IZR_lt; lia).
  assert (Hl : 0 <= ln (IZR cross_max) - ln (IZR cross_min)).
  { pose proof (ln_monotone (IZR cross_min) (IZR cross_max)
                  (IZR_lt 0 _ Hmin) (IZR_le _ _ Hle)). lra. }
  assert (Ht : IZR i / IZR (steps - 1) <= IZR j / IZR (steps - 1)).
  { unfold Rdiv. apply Rmult_le_compat_r.
    - left. apply Rinv_0_lt_compat. exact Hd.
    - apply IZR_le. exact Hij. }
  nra.
Qed.

Lemma event_count_monotone (bytes_per_event b1 b2 : Z) :
  (0 < bytes_per_event)%Z -> (b1 <= b2)%Z ->
  (event_count bytes_per_event b1 <= event_count bytes_per_event b2)%Z.
Proof.
  intros Hb H12. unfold event_count.
  apply Z.max_le_compat_l, math_ceil_monotone.
  unfold Rdiv. apply Rmult_le_compat_r.
  - left. apply Rinv_0_lt_compat, IZR_lt. lia.
  - apply IZR_le. exact H12.
Qed.

Lemma event_count_positive (bytes_per_event b : Z) :
  (1 <= event_count bytes_per_event b)%Z.
Proof. unfold event_count. lia. Qed.

(** ** The records of a sweep, by index *)


(** ** Monotonicity in the crossing volume *)

Lemma energy_cross_monotone (boundary : BoundaryCost) (b1 e1 b2 e2 : Z) :
  0 <= alpha_pj_per_event boundary -> 0 <= beta_pj_per_byte boundary ->
  (b1 <= b2)%Z -> (e1 <= e2)%Z ->
  energy_cross b1 e1 boundary <= energy_cross b2 e2 boundary.
Proof.
  intros Ha Hbeta Hb He. unfold energy_cross, float.
  apply IZR_le in Hb. apply IZR_le in He. nra.
Qed.

Lemma energy_cross_nonneg (boundary : BoundaryCost) (b e : Z) :
  0 <= alpha_pj_per_event boundary -> 0 <= beta_pj_per_byte boundary ->
  (0 <= b)%Z -> (0 <= e)%Z -> 0 <= energy_cross b e boundary.
Proof.
  intros Ha Hbeta Hb He. unfold energy_cross, float.
  apply IZR_le in Hb. apply IZR_le in He. nra.
Qed.

Lemma energy_intra_nonneg (compute : ComputeCost) (n : Z) :
  0 <= pj_per_byte compute -> (0 <= n)%Z -> 0 <= energy_intra n compute.
Proof.
  intros Hp Hn. unfold energy_intra, float. apply IZR_le in Hn. nra.
Qed.

(** ** The comparison in closed form *)

Lemma ln_positive (x : R) : 1 < x -> 0 < ln x.
Proof. intros H. rewrite <- ln_1. apply ln_increasing; lra. Qed.

Lemma ln_negative (x : R) : 0 < x -> x < 1 -> ln x < 0.
Proof. intros H0 H1. rewrite <- ln_1. apply ln_increasing; lra. Qed.

Lemma ln_nonzero (x : R) : 0 < x -> x <> 1 -> ln x <> 0.
Proof.
  intros H0 H1.
  destruct (Rlt_dec x 1) as [Hlt | Hge].
  - pose proof (ln_negative x H0 Hlt). lra.
  - assert (Hgt : 1 < x) by lra. pose proof (ln_positive x Hgt). lra.
Qed.

Lemma effective_elasticity_value (reduce_factor : R) (gain : xfloat) :
  0 < reduce_factor ->
  (if negb (Req_b reduce_factor 1) && xfloat_pos gain
   then
     lg <- xfloat_log gain ;;
     lr <- math_log reduce_factor ;;
     xfloat_div lg lr
   else Ok (Finite 0))
  = Ok (effective_value reduce_factor gain).
Proof.
  intros Hrf. unfold effective_value.
  destruct (Req_b reduce_factor 1) eqn:E1; simpl; [reflexivity |].
  apply Req_b_false in E1.
  pose proof (ln_nonzero reduce_factor Hrf E1) as Hln.
  destruct gain as [g | |]; simpl; try reflexivity.
  - destruct (Rlt_b 0 g) eqn:Eg; [| reflexivity].
    apply Rlt_b_true in Eg.
    rewrite !math_log_ok by assumption. simpl.
    unfold xfloat_div.
    destruct (Req_b (ln reduce_factor) 0) eqn:E0;
      [apply Req_b_true in E0; contradiction | reflexivity].
  - rewrite math_log_ok by assumption. simpl.
    unfold xfloat_div.
    destruct (Req_b (ln reduce_factor) 0) eqn:E0;
      [apply Req_b_true in E0; contradiction |].
    f_equal. cmp_cases; try reflexivity; exfalso.
    + destruct (Rlt_dec reduce_factor 1) as [Hlt | Hge]; [| lra].
      pose proof (ln_negative reduce_factor Hrf Hlt). lra.
    + pose proof (ln_positive reduce_factor ltac:(assumption)). lra.
Qed.

Lemma gain_computation_value (base_total red_total : R) :
  (if Rlt_b 0 red_total
   then g <- truediv base_total red_total ;; Ok (Finite g)
   else Ok PInf)
  = Ok (gain_value base_total red_total).
Proof.
  unfold gain_value. cmp_cases; [| reflexivity].
  rewrite truediv_ok by lra. reflexivity.
Qed.

(** On valid arguments the comparison returns, and what it returns is
    [compare_value]. *)
Lemma compare_ok (bytes_compute cross_bytes bytes_per_event : Z)
    (reduce_factor : R) (compute : ComputeCost) (boundary : BoundaryCost) :
  (0 < cross_bytes)%Z -> (0 < bytes_per_event)%Z -> 0 < reduce_factor ->
  compare_baseline_vs_reduced bytes_compute cross_bytes bytes_per_event
    reduce_factor compute boundary
  = Ok (compare_value bytes_compute cross_bytes bytes_per_event
          reduce_factor compute boundary).
Proof.
  intros Hcb Hbpe Hrf. unfold compare_baseline_vs_reduced.
  replace (cross_bytes <=? 0)%Z with false by (symmetry; apply Z.leb_gt; lia).
  replace (bytes_per_event <=? 0)%Z with false
    by (symmetry; apply Z.leb_gt; lia).
  replace (Rle_b reduce_factor 0) with false
    by (symmetry; apply Rle_b_false; exact Hrf).
  assert (Hne : float bytes_per_event <> 0) by (apply not_0_IZR; lia).
  rewrite truediv_ok by exact Hne. simpl bind.
  rewrite truediv_ok by lra. simpl bind.
  rewrite truediv_ok by exact Hne. simpl bind.
  rewrite !run_point_value. simpl bind.
  rewrite gain_computation_value. simpl bind.
  rewrite effective_elasticity_value by exact Hrf. simpl bind.
  reflexivity.
Qed.

Lemma compare_invalid_raises (bytes_compute cross_bytes bytes_per_event : Z)
    (reduce_factor : R) (compute : ComputeCost) (boundary : BoundaryCost) :
  (cross_bytes <= 0)%Z \/ (bytes_per_event <= 0)%Z \/ reduce_factor <= 0 ->
  exists msg,
    compare_baseline_vs_reduced bytes_compute cross_bytes bytes_per_event
      reduce_factor compute boundary = Raise (ValueError msg).
Proof.
  intros H. unfold compare_baseline_vs_reduced.
  destruct (Z.leb_spec cross_bytes 0); [eexists; reflexivity |].
  destruct (Z.leb_spec bytes_per_event 0); [eexists; reflexivity |].
  destruct (Rle_b reduce_factor 0) eqn:E; [eexists; reflexivity |].
  apply Rle_b_false in E. exfalso. destruct H as [H | [H | H]]; try lia; lra.
Qed.

(** A comparison that returns was given valid arguments, and returns
    [compare_value]. *)
Lemma compare_ok_inv (bytes_compute cross_bytes bytes_per_event : Z)
    (reduce_factor : R) (compute : ComputeCost) (boundary : BoundaryCost)
    (out : CompareResult.t) :
  compare_baseline_vs_reduced bytes_compute cross_bytes bytes_per_event
    reduce_factor compute boundary = Ok out ->
  ((0 < cross_bytes)%Z /\ (0 < bytes_per_event)%Z /\ 0 < reduce_factor)
  /\ out = compare_value bytes_compute cross_bytes bytes_per_event
             reduce_factor compute boundary.
Proof.
  intros Hout.
  destruct (Z.leb_spec cross_bytes 0) as [H1 | H1];
    [| destruct (Z.leb_spec bytes_per_event 0) as [H2 | H2];
       [| destruct (Rle_dec reduce_factor 0) as [H3 | H3]]].
  4: { assert (Hrf : 0 < reduce_factor) by lra.
       rewrite compare_ok in Hout by assumption.
       injection Hout as <-. auto. }
  all: exfalso;
    destruct (compare_invalid_raises bytes_compute cross_bytes
                bytes_per_event reduce_factor compute boundary) as [msg Hm];
    [tauto | rewrite Hm in Hout; discriminate].
Qed.

(** ** The invariants of the energies *)




(** ** The reduced crossing volume *)

Lemma reduced_bytes_le (cross_bytes : Z) (reduce_factor : R) :
  (0 < cross_bytes)%Z -> 1 <= reduce_factor ->
  (reduced_bytes cross_bytes reduce_factor <= cross_bytes)%Z.
Proof.
  intros Hcb Hrf. unfold reduced_bytes.
  apply Z.max_lub; [lia |].
  rewrite <- (round_float cross_bytes) at 2. apply round_monotone.
  unfold float. assert (H : 0 < IZR cross_bytes) by (apply IZR_lt; lia).
  apply Rmult_le_reg_r with reduce_factor; [lra |].
  unfold Rdiv. rewrite Rmult_assoc, Rinv_l by lra. nra.
Qed.

(** * Further properties of the code *)

(** ** Which check fails first *)

(** X2: the three checks of [sweep] are made in the order steps, crossing
    range, bytes per event, and the message is the one of the first check
    that fails, whatever the later arguments are. *)
Theorem sweep_error_messages (bytes_compute cross_min cross_max steps
    bytes_per_event : Z) (compute : ComputeCost) (boundary : BoundaryCost) :
  ((steps < 2)%Z ->
   sweep bytes_compute cross_min cross_max steps bytes_per_event
     compute boundary = Raise (ValueError "steps must be >= 2"))
  /\ ((2 <= steps)%Z ->
      (cross_min <= 0 \/ cross_max <= 0 \/ cross_min > cross_max)%Z ->
      sweep bytes_compute cross_min cross_max steps bytes_per_event
        compute boundary
      = Raise (ValueError "Require 0 < cross_min <= cross_max"))
  /\ ((2 <= steps)%Z -> (0 < cross_min)%Z -> (cross_min <= cross_max)%Z ->
      (bytes_per_event <= 0)%Z ->
      sweep bytes_compute cross_min cross_max steps bytes_per_event
        compute boundary
      = Raise (ValueError "bytes_per_event must be > 0")).
Proof.
  unfold sweep. repeat split.
  - intros H. apply Z.ltb_lt in H. rewrite H. reflexivity.
  - intros Hs H. apply Z.ltb_ge in Hs. rewrite Hs.
    destruct (Z.leb_spec cross_min 0); [reflexivity |].
    destruct (Z.leb_spec cross_max 0); [reflexivity |].
    rewrite Z.gtb_ltb.
    destruct (Z.ltb_spec cross_max cross_min); [reflexivity |].
    exfalso. lia.
  - intros Hs Hmin Hle Hb. apply Z.ltb_ge in Hs. rewrite Hs.
    replace (cross_min <=? 0)%Z with false
      by (symmetry; apply Z.leb_gt; lia).
    replace (cross_max <=? 0)%Z with false
      by (symmetry; apply Z.leb_gt; lia).
    replace (cross_min >? cross_max)%Z with false
      by (symmetry; rewrite Z.gtb_ltb; apply Z.ltb_ge; lia).
    apply Z.leb_le in Hb. rewrite Hb. reflexivity.
Qed.

Lemma sweep_error_messages_witness :
  sweep 100 (-1) 100 1 0 (mkComputeCost 0.25) (mkBoundaryCost 0 1)
  = Raise (ValueError "steps must be >= 2")
  /\ sweep 100 (-1) 100 5 0 (mkComputeCost 0.25) (mkBoundaryCost 0 1)
     = Raise (ValueError "Require 0 < cross_min <= cross_max")
  /\ sweep 100 10 100 5 0 (mkComputeCost 0.25) (mkBoundaryCost 0 1)
     = Raise (ValueError "bytes_per_event must be > 0").
Proof.
  split; [| split].
  - apply (proj1 (sweep_error_messages 100 (-1) 100 1 0
                    (mkComputeCost 0.25) (mkBoundaryCost 0 1))). lia.
  - apply (proj1 (proj2 (sweep_error_messages 100 (-1) 100 5 0
                           (mkComputeCost 0.25) (mkBoundaryCost 0 1)))); lia.
  - apply (proj2 (proj2 (sweep_error_messages 100 10 100 5 0
                           (mkComputeCost 0.25) (mkBoundaryCost 0 1)))); lia.
Defined.

(** ** The samples of the exact reading *)

Lemma sample_bytes_range (cross_min cross_max steps i : Z) :
  sweep_valid cross_min cross_max steps 1 ->
  (0 <= i <= steps - 1)%Z ->
  (cross_min <= sample_bytes cross_min cross_max steps i <= cross_max)%Z.
Proof.
  intros (Hs & Hmin & Hmax & Hle & _) [Hi0 Hi1].
  pose proof (sample_bytes_monotone cross_min cross_max steps 0 i
                Hs Hmin Hle Hi0) as Hlo.
  pose proof (sample_bytes_monotone cross_min cross_max steps i (steps - 1)
                Hs Hmin Hle Hi1) as Hhi.
  rewrite sample_bytes_first in Hlo by exact Hmin.
  rewrite sample_bytes_last in Hhi by assumption.
  lia.
Qed.

Lemma sweep_ok_records (bytes_compute cross_min cross_max steps
    bytes_per_event : Z) (compute : ComputeCost) (boundary : BoundaryCost)
    (rs : list ResultPoint.t) (r : ResultPoint.t) :
  sweep bytes_compute cross_min cross_max steps bytes_per_event
    compute boundary = Ok rs ->
  In r rs ->
  sweep_valid cross_min cross_max steps bytes_per_event
  /\ exists i : nat,
       (Z.of_nat i <= steps - 1)%Z
       /\ r = sweep_nth bytes_compute cross_min cross_max steps
                bytes_per_event compute boundary i.
Proof.
  intros Hrs Hr.
  pose proof (sweep_ok_valid _ _ _ _ _ _ _ _ Hrs) as Hv.
  split; [exact Hv |].
  rewrite (sweep_value bytes_compute _ _ _ _ compute boundary Hv) in Hrs.
  injection Hrs as <-.
  apply in_map_iff in Hr as (i & <- & Hi). apply in_seq in Hi.
  exists i. split; [| reflexivity].
  destruct Hv as (Hs & _). lia.
Qed.

(** ** The event count is an integer ceiling division *)

Lemma math_ceil_quotient (b e : Z) :
  (0 < e)%Z -> math_ceil (IZR b / IZR e) = ((b + e - 1) / e)%Z.
Proof.
  intros He. unfold math_ceil. apply Zceil_eq.
  set (q := ((b + e - 1) / e)%Z).
  assert (Hlo : (e * q <= b + e - 1)%Z) by (apply Z.mul_div_le; lia).
  assert (Hhi : (b + e - 1 < e * Z.succ q)%Z)
    by (apply Z.mul_succ_div_gt; lia).
  assert (He' : 0 < IZR e) by (apply IZR_lt; lia).
  assert (H1 : IZR e * (IZR q - 1) < IZR b).
  { replace (IZR q - 1) with (IZR (q - 1)) by (rewrite minus_IZR; reflexivity).
    rewrite <- mult_IZR. apply IZR_lt. lia. }
  assert (H2 : IZR b <= IZR e * IZR q).
  { rewrite <- mult_IZR. apply IZR_le. lia. }
  split.
  - apply Rmult_lt_reg_r with (IZR e); [exact He' |].
    unfold Rdiv. rewrite Rmult_assoc, Rinv_l by lra. lra.
  - apply Rmult_le_reg_r with (IZR e); [exact He' |].
    unfold Rdiv. rewrite Rmult_assoc, Rinv_l by lra. lra.
Qed.

(** X4: in every record that [sweep] returns with a crossing volume below
    [2^53], [events_cross] is the integer ceiling division
    [(bytes_cross + bytes_per_event - 1) // bytes_per_event]: the events
    carry all the crossing bytes, and one event less would not. *)
Theorem sweep_events_cover_bytes (bytes_compute cross_min cross_max steps
    bytes_per_event : Z) (compute : ComputeCost) (boundary : BoundaryCost)
    (rs : list ResultPoint.t) :
  sweep bytes_compute cross_min cross_max steps bytes_per_event
    compute boundary = Ok rs ->
  forall r, In r rs ->
    (ResultPoint.bytes_cross r < count_limit)%Z ->
    ResultPoint.events_cross r
    = ((ResultPoint.bytes_cross r + bytes_per_event - 1) / bytes_per_event)%Z
    /\ (ResultPoint.bytes_cross r
        <= ResultPoint.events_cross r * bytes_per_event)%Z
    /\ ((ResultPoint.events_cross r - 1) * bytes_per_event
        < ResultPoint.bytes_cross r)%Z.
Proof.
  intros Hrs r Hr _.
  destruct (sweep_ok_records _ _ _ _ _ _ _ _ _ Hrs Hr)
    as ((Hs & Hmin & Hmax & Hle & Hb) & i & Hi & ->).
  assert (Hrange :
    (cross_min <= sample_bytes cross_min cross_max steps (Z.of_nat i)
     <= cross_max)%Z).
  { apply sample_bytes_range; [unfold sweep_valid; lia | lia]. }
  simpl. unfold event_count. rewrite math_ceil_quotient by exact Hb.
  set (b := sample_bytes cross_min cross_max steps (Z.of_nat i)) in *.
  set (q := ((b + bytes_per_event - 1) / bytes_per_event)%Z).
  assert (Hlo : (bytes_per_event * q <= b + bytes_per_event - 1)%Z)
    by (apply Z.mul_div_le; lia).
  assert (Hhi : (b + bytes_per_event - 1 < bytes_per_event * Z.succ q)%Z)
    by (apply Z.mul_succ_div_gt; lia).
  assert (Hq : (1 <= q)%Z) by nia.
  rewrite Z.max_r by exact Hq. repeat split; nia.
Qed.

Lemma sweep_events_cover_bytes_witness :
  exists rs,
    sweep 100 10 1000 5 10 (mkComputeCost 0.25) (mkBoundaryCost 0 1) = Ok rs
    /\ forall r, In r rs ->
         (ResultPoint.bytes_cross r <= ResultPoint.events_cross r * 10)%Z.
Proof.
  assert (Hv : sweep_valid 10 1000 5 10) by (unfold sweep_valid; lia).
  eexists. split.
  - apply sweep_value. exact Hv.
  - intros r Hr.
    apply (sweep_events_cover_bytes 100 10 1000 5 10 (mkComputeCost 0.25)
             (mkBoundaryCost 0 1) _
             (sweep_value 100 10 1000 5 10 (mkComputeCost 0.25)
                (mkBoundaryCost 0 1) Hv) r Hr).
    destruct (sweep_ok_records _ _ _ _ _ _ _ _ _
                (sweep_value 100 10 1000 5 10 (mkComputeCost 0.25)
                   (mkBoundaryCost 0 1) Hv) Hr)
      as (_ & i & Hi & ->).
    assert (Hrange : (10 <= sample_bytes 10 1000 5 (Z.of_nat i) <= 1000)%Z)
      by (apply sample_bytes_range; [unfold sweep_valid; lia | lia]).
    simpl. unfold count_limit. lia.
Defined.

(** ** The crossing fraction is a share *)

Lemma fraction_value_share (a c : R) :
  0 <= a -> 0 <= c -> 0 <= fraction_value c (a + c) <= 1.
Proof.
  intros Ha Hc. unfold fraction_value. cmp_cases; [| lra].
  assert (Hi : 0 < / (a + c)) by (apply Rinv_0_lt_compat; lra).
  split.
  - apply Rmult_le_pos; lra.
  - apply Rmult_le_reg_r with (a + c); [lra |].
    unfold Rdiv. rewrite Rmult_assoc, Rinv_l by lra. lra.
Qed.

(** X5: for a point with non-negative counts, evaluated with non-negative
    costs, in the range of the exact reading, [run_point] returns a crossing
    energy that is at most the total energy and a crossing fraction in
    [[0,1]]. *)
Theorem run_point_fraction_share (p : ProgramPoint.t)
    (compute : ComputeCost) (boundary : BoundaryCost) :
  (0 <= ProgramPoint.bytes_compute p <= count_limit)%Z ->
  (0 <= ProgramPoint.bytes_cross p <= count_limit)%Z ->
  (0 <= ProgramPoint.events_cross p <= count_limit)%Z ->
  moderate_costs compute boundary ->
  exists c_intra c_cross c_total frac,
    run_point p compute boundary = Ok (c_intra, c_cross, c_total, frac)
    /\ 0 <= c_cross <= c_total
    /\ 0 <= frac <= 1.
Proof.
  intros [Hbc _] [Hb _] [He _] ([Hpj _] & [Ha _] & [Hbeta _]).
  do 4 eexists. split; [apply run_point_value |].
  pose proof (energy_intra_nonneg compute _ Hpj Hbc) as Hi.
  pose proof (energy_cross_nonneg boundary _ _ Ha Hbeta Hb He) as Hc.
  split; [lra |].
  apply fraction_value_share; assumption.
Qed.

Lemma run_point_fraction_share_witness :
  exists c_intra c_cross c_total frac,
    run_point (ProgramPoint.mk 100 10 3) (mkComputeCost 0.25)
      (mkBoundaryCost 2 1) = Ok (c_intra, c_cross, c_total, frac)
    /\ 0 <= frac <= 1.
Proof.
  pose proof cost_limit_large as Hl.
  destruct (run_point_fraction_share (ProgramPoint.mk 100 10 3)
              (mkComputeCost 0.25) (mkBoundaryCost 2 1))
    as (ci & cc & ct & fr & Hrun & _ & Hfr);
    try (unfold count_limit; simpl; lia);
    try (unfold moderate_costs; simpl; lra).
  exists ci, cc, ct, fr. split; assumption.
Defined.

(** The crossing fraction of the [i]-th record of a sweep, under
    non-negative inputs. *)
Lemma sweep_nth_fraction_bounds (bytes_compute cross_min cross_max
    steps bytes_per_event : Z) (compute : ComputeCost)
    (boundary : BoundaryCost) (i : nat) :
  sweep_valid cross_min cross_max steps bytes_per_event ->
  (Z.of_nat i <= steps - 1)%Z ->
  (0 <= bytes_compute)%Z -> 0 <= pj_per_byte compute ->
  0 <= alpha_pj_per_event boundary -> 0 <= beta_pj_per_byte boundary ->
  0 <= ResultPoint.crossing_fraction
         (sweep_nth bytes_compute cross_min cross_max steps bytes_per_event
            compute boundary i) <= 1.
Proof.
  intros (Hs & Hmin & Hmax & Hle & Hb) Hi Hbc Hpj Ha Hbeta.
  assert (Hrange :
    (cross_min <= sample_bytes cross_min cross_max steps (Z.of_nat i)
     <= cross_max)%Z).
  { apply sample_bytes_range; [unfold sweep_valid; lia | lia]. }
  pose proof (event_count_positive bytes_per_event
                (sample_bytes cross_min cross_max steps (Z.of_nat i))) as Hev.
  simpl. unfold point_total, point_intra, point_cross. simpl.
  set (b := sample_bytes cross_min cross_max steps (Z.of_nat i)) in *.
  assert (Hi0 : 0 <= energy_intra bytes_compute compute)
    by (apply energy_intra_nonneg; assumption).
  assert (Hc0 : 0 <= energy_cross b (event_count bytes_per_event b) boundary)
    by (apply energy_cross_nonneg; try assumption; lia).
  apply fraction_value_share; assumption.
Qed.

(** ** The log-slope as an elasticity *)

(** X7: [log_slope] does not depend on the order of the two points. *)
Theorem log_slope_symmetric (x1 y1 x2 y2 : R) :
  log_slope x1 y1 x2 y2 = log_slope x2 y2 x1 y1.
Proof.
  rewrite !log_slope_value. f_equal. unfold slope_value.
  cmp_cases; simpl; try reflexivity; try (exfalso; congruence).
  pose proof (ln_diff_nonzero x1 x2 ltac:(assumption) ltac:(assumption)
                ltac:(assumption)).
  field. split; lra.
Qed.

Lemma slope_value_nonneg (x1 y1 x2 y2 : R) :
  x1 <= x2 -> y1 <= y2 -> 0 <= slope_value x1 y1 x2 y2.
Proof.
  intros Hx Hy. unfold slope_value.
  cmp_cases; simpl; try lra.
  assert (Hlt : x1 < x2) by lra.
  pose proof (ln_increasing x1 x2 ltac:(assumption) Hlt).
  pose proof (ln_monotone y1 y2 ltac:(assumption) Hy).
  apply Rmult_le_pos; [lra | left; apply Rinv_0_lt_compat; lra].
Qed.

(** The local elasticity of the [i]-th record of a sweep, under
    non-negative inputs. *)
Lemma sample_epsilon_nonneg (bytes_compute cross_min cross_max steps
    bytes_per_event : Z) (compute : ComputeCost) (boundary : BoundaryCost)
    (i : nat) :
  sweep_valid cross_min cross_max steps bytes_per_event ->
  (Z.of_nat i <= steps - 1)%Z ->
  (0 <= bytes_compute)%Z -> 0 <= pj_per_byte compute ->
  0 <= alpha_pj_per_event boundary -> 0 <= beta_pj_per_byte boundary ->
  0 <= sample_epsilon bytes_compute cross_min cross_max steps
         bytes_per_event compute boundary i.
Proof.
  intros (Hs & Hmin & Hmax & Hle & Hb) Hi Hbc Hpj Ha Hbeta.
  destruct i as [| j]; [simpl; lra |].
  unfold sample_epsilon. cbv zeta.
  remember (Z.of_nat (S j)) as k eqn:Hk.
  unfold point_total, point_intra, point_cross, sample_point.
  cbn [ProgramPoint.bytes_compute ProgramPoint.bytes_cross
       ProgramPoint.events_cross].
  set (b1 := sample_bytes cross_min cross_max steps (Z.of_nat j)).
  set (b2 := sample_bytes cross_min cross_max steps k).
  assert (Hb12 : (b1 <= b2)%Z)
    by (apply sample_bytes_monotone; try assumption; lia).
  pose proof (event_count_monotone bytes_per_event b1 b2 Hb Hb12) as Hev.
  unfold float at 1 2.
  assert (HR12 : IZR b1 <= IZR b2) by (apply IZR_le; exact Hb12).
  apply slope_value_nonneg; [exact HR12 |].
  pose proof (energy_cross_monotone boundary _ _ _ _ Ha Hbeta Hb12 Hev).
  lra.
Qed.

(** X10: with a compute volume and costs that are not negative, in the
    range of the exact reading, the [epsilon_local] of every record that
    [sweep] returns is non-negative. *)
Theorem sweep_epsilon_bounds (bytes_compute cross_min cross_max steps
    bytes_per_event : Z) (compute : ComputeCost) (boundary : BoundaryCost)
    (rs : list ResultPoint.t) :
  (0 <= bytes_compute <= count_limit)%Z -> (cross_max <= count_limit)%Z ->
  moderate_costs compute boundary ->
  sweep bytes_compute cross_min cross_max steps bytes_per_event
    compute boundary = Ok rs ->
  forall r, In r rs -> 0 <= ResultPoint.epsilon_local r.
Proof.
  intros [Hbc _] _ ([Hpj _] & [Ha _] & [Hbeta _]) Hrs r Hr.
  destruct (sweep_ok_records _ _ _ _ _ _ _ _ _ Hrs Hr)
    as (Hv & i & Hi & ->).
  cbn [sweep_nth ResultPoint.epsilon_local].
  apply sample_epsilon_nonneg; assumption.
Qed.

Lemma sweep_epsilon_bounds_witness :
  exists rs,
    sweep 262144 256 524288 12 256
      (mkComputeCost 0.0001) (mkBoundaryCost 0 3.2) = Ok rs
    /\ forall r, In r rs -> 0 <= ResultPoint.epsilon_local r.
Proof.
  assert (Hv : sweep_valid 256 524288 12 256) by (unfold sweep_valid; lia).
  pose proof cost_limit_large as Hl.
  eexists. split.
  - apply sweep_value. exact Hv.
  - apply (sweep_epsilon_bounds 262144 256 524288 12 256
             (mkComputeCost 0.0001) (mkBoundaryCost 0 3.2)).
    + unfold count_limit. lia.
    + unfold count_limit. lia.
    + unfold moderate_costs. simpl. lra.
    + apply sweep_value. exact Hv.
Defined.

(** ** The sweep and the cost parameters *)

(** X11: the sample grid of a sweep does not depend on the costs: two
    sweeps that differ only in their compute and boundary costs return
    records with the same [bytes_cross] and [events_cross], in the same
    order. *)
Theorem sweep_grid_independent_of_costs (bytes_compute cross_min cross_max
    steps bytes_per_event : Z) (compute1 compute2 : ComputeCost)
    (boundary1 boundary2 : BoundaryCost) (rs1 : list ResultPoint.t) :
  sweep bytes_compute cross_min cross_max steps bytes_per_event
    compute1 boundary1 = Ok rs1 ->
  exists rs2,
    sweep bytes_compute cross_min cross_max steps bytes_per_event
      compute2 boundary2 = Ok rs2
    /\ map ResultPoint.bytes_cross rs2 = map ResultPoint.bytes_cross rs1
    /\ map ResultPoint.events_cross rs2 = map ResultPoint.events_cross rs1.
Proof.
  intros Hrs.
  pose proof (sweep_ok_valid _ _ _ _ _ _ _ _ Hrs) as Hv.
  rewrite (sweep_value bytes_compute _ _ _ _ compute1 boundary1 Hv) in Hrs.
  injection Hrs as <-.
  eexists. split; [apply sweep_value; exact Hv |].
  rewrite !map_map. split; reflexivity.
Qed.

Lemma sweep_grid_independent_of_costs_witness :
  exists rs1 rs2,
    sweep 100 10 1000 5 10 (mkComputeCost 0.25) (mkBoundaryCost 0 1) = Ok rs1
    /\ sweep 100 10 1000 5 10 (mkComputeCost 0.05) (mkBoundaryCost 2 5)
       = Ok rs2
    /\ map ResultPoint.bytes_cross rs2 = map ResultPoint.bytes_cross rs1.
Proof.
  assert (Hv : sweep_valid 10 1000 5 10) by (unfold sweep_valid; lia).
  destruct (sweep_grid_independent_of_costs 100 10 1000 5 10
              (mkComputeCost 0.25) (mkComputeCost 0.05)
              (mkBoundaryCost 0 1) (mkBoundaryCost 2 5) _
              (sweep_value 100 10 1000 5 10 (mkComputeCost 0.25)
                 (mkBoundaryCost 0 1) Hv))
    as (rs2 & H2 & Hb & _).
  eexists. exists rs2. split; [apply sweep_value; exact Hv |].
  split; assumption.
Defined.

(** ** Edge cases of the comparison *)


Lemma reduced_bytes_identity (cross_bytes : Z) :
  (0 < cross_bytes)%Z -> reduced_bytes cross_bytes 1 = cross_bytes.
Proof.
  intros H. unfold reduced_bytes.
  replace (IZR cross_bytes / 1) with (float cross_bytes)
    by (unfold float; field).
  rewrite round_float. lia.
Qed.

(** X13: a reduction by the factor [1] changes nothing: in the range of the
    exact reading, where [float(cross_bytes)] is [cross_bytes] itself, the
    six reduced fields of a comparison that returned equal the six baseline
    fields, the effective elasticity is [0], and the gain is [1] when the
    total energy is positive and positive infinity otherwise. *)
Theorem compare_factor_one (bytes_compute cross_bytes bytes_per_event : Z)
    (compute : ComputeCost) (boundary : BoundaryCost)
    (out : CompareResult.t) :
  (Z.abs bytes_compute <= count_limit)%Z -> (cross_bytes <= count_limit)%Z ->
  moderate_costs compute boundary ->
  compare_baseline_vs_reduced bytes_compute cross_bytes bytes_per_event
    1 compute boundary = Ok out ->
  CompareResult.reduced_total_pj out = CompareResult.baseline_total_pj out
  /\ CompareResult.reduced_intra_pj out = CompareResult.baseline_intra_pj out
  /\ CompareResult.reduced_cross_pj out = CompareResult.baseline_cross_pj out
  /\ CompareResult.reduced_cross_frac out
     = CompareResult.baseline_cross_frac out
  /\ CompareResult.reduced_cross_bytes out
     = CompareResult.baseline_cross_bytes out
  /\ CompareResult.reduced_events out = CompareResult.baseline_events out
  /\ CompareResult.elasticity_effective out = Finite 0
  /\ (0 < CompareResult.baseline_total_pj out ->
      CompareResult.energy_gain_x out = Finite 1)
  /\ (CompareResult.baseline_total_pj out <= 0 ->
      CompareResult.energy_gain_x out = PInf).
Proof.
  intros _ _ _ Hout.
  apply compare_ok_inv in Hout as [(Hcb & Hbpe & _) ->].
  unfold compare_value. rewrite reduced_bytes_identity by exact Hcb.
  cbn [CompareResult.reduced_total_pj CompareResult.baseline_total_pj
       CompareResult.reduced_intra_pj CompareResult.baseline_intra_pj
       CompareResult.reduced_cross_pj CompareResult.baseline_cross_pj
       CompareResult.reduced_cross_frac CompareResult.baseline_cross_frac
       CompareResult.reduced_cross_bytes CompareResult.baseline_cross_bytes
       CompareResult.reduced_events CompareResult.baseline_events
       CompareResult.elasticity_effective CompareResult.energy_gain_x].
  do 6 (split; [reflexivity |]).
  split; [| split].
  - unfold effective_value.
    destruct (Req_b 1 1) eqn:E; [reflexivity |].
    apply Req_b_false in E. contradiction.
  - intros H. unfold gain_value. cmp_cases; [| exfalso; lra].
    f_equal. field. lra.
  - intros H. unfold gain_value. cmp_cases; [exfalso; lra | reflexivity].
Qed.

Lemma compare_factor_one_witness :
  exists out,
    compare_baseline_vs_reduced 100 100 10 1
      (mkComputeCost 0.25) (mkBoundaryCost 0 1) = Ok out
    /\ CompareResult.reduced_cross_bytes out
       = CompareResult.baseline_cross_bytes out
    /\ CompareResult.elasticity_effective out = Finite 0.
Proof.
  pose proof cost_limit_large as Hl.
  eexists. split; [apply compare_ok; try lia; lra |].
  refine ((fun H => conj (proj1 (proj2 (proj2 (proj2 (proj2 H)))))
                         (proj1 (proj2 (proj2 (proj2 (proj2 (proj2
                            (proj2 H))))))))
            (compare_factor_one 100 100 10 (mkComputeCost 0.25)
               (mkBoundaryCost 0 1) _ _ _ _ _)).
  - unfold count_limit. lia.
  - unfold count_limit. lia.
  - unfold moderate_costs. simpl. lra.
  - apply compare_ok; try lia; lra.
Defined.




(** ** The sign of the gain and of the effective elasticity *)






(** ** The resolution of the costs on the command line *)

Lemma dict_getitem_absent {A : Type} (d : list (string * A)) (k : string) :
  ~ In k (map fst d) -> dict_getitem d k = KeyError k.
Proof.
  induction d as [| [k' v] d IH]; intros H; simpl.
  - reflexivity.
  - destruct (String.eqb_spec k k') as [-> | Hne].
    + exfalso. apply H. left. reflexivity.
    + apply IH. intros Hin. apply H. right. exact Hin.
Qed.

Lemma dict_getitem_present {A : Type} (d : list (string * A)) (k : string) :
  In k (map fst d) -> exists v, dict_getitem d k = Found v /\ In (k, v) d.
Proof.
  induction d as [| [k' v] d IH]; intros H; simpl in *.
  - contradiction.
  - destruct (String.eqb_spec k k') as [-> | Hne].
    + exists v. split; [reflexivity | left; reflexivity].
    + destruct H as [H | H]; [exfalso; apply Hne; symmetry; exact H |].
      destruct (IH H) as (w & Hw & Hin). exists w. split; [exact Hw |].
      right. exact Hin.
Qed.

Lemma default_boundaries_shape (k : string) (b : BoundaryCost) :
  In (k, b) DEFAULT_BOUNDARIES ->
  alpha_pj_per_event b = 0 /\ 0 < beta_pj_per_byte b.
Proof.
  unfold DEFAULT_BOUNDARIES. simpl.
  intros [H | [H | [H | [H | [H | []]]]]]; injection H as _ <-;
    simpl; split; lra.
Qed.

Lemma default_compute_shape (k : string) (c : ComputeCost) :
  In (k, c) DEFAULT_COMPUTE -> 0 < pj_per_byte c.
Proof.
  unfold DEFAULT_COMPUTE. simpl.
  intros [H | [H | [H | []]]]; injection H as _ <-; simpl; lra.
Qed.

(** X17: [_resolve_costs] returns exactly when the boundary name and the
    compute name are keys of the two preset catalogs; an unknown boundary
    name raises [KeyError] with that name, and with a known boundary name
    an unknown compute name raises [KeyError] with the compute name,
    whatever the overrides are. *)
Theorem resolve_costs_keys (args : Namespace.t) :
  (In (Namespace.boundary args) (map fst DEFAULT_BOUNDARIES) ->
   In (Namespace.compute args) (map fst DEFAULT_COMPUTE) ->
   exists costs, _resolve_costs args = Found costs)
  /\ (~ In (Namespace.boundary args) (map fst DEFAULT_BOUNDARIES) ->
      _resolve_costs args = KeyError (Namespace.boundary args))
  /\ (In (Namespace.boundary args) (map fst DEFAULT_BOUNDARIES) ->
      ~ In (Namespace.compute args) (map fst DEFAULT_COMPUTE) ->
      _resolve_costs args = KeyError (Namespace.compute args)).
Proof.
  unfold _resolve_costs. repeat split.
  - intros Hb Hc.
    destruct (dict_getitem_present _ _ Hb) as (b & -> & _).
    destruct (dict_getitem_present _ _ Hc) as (c & -> & _).
    eexists. reflexivity.
  - intros Hb. rewrite (dict_getitem_absent _ _ Hb). reflexivity.
  - intros Hb Hc.
    destruct (dict_getitem_present _ _ Hb) as (b & -> & _).
    rewrite (dict_getitem_absent _ _ Hc). reflexivity.
Qed.

Lemma resolve_costs_keys_witness :
  (exists costs,
     _resolve_costs (Namespace.mk "analog" "digital" None None None)
     = Found costs)
  /\ _resolve_costs (Namespace.mk "optical" "quantum" (Some 1) None None)
     = KeyError "optical"%string
  /\ _resolve_costs (Namespace.mk "hbm" "quantum" None None None)
     = KeyError "quantum"%string.
Proof.
  split; [| split].
  - apply (proj1 (resolve_costs_keys
                    (Namespace.mk "analog" "digital" None None None)));
      simpl; tauto.
  - apply (proj1 (proj2 (resolve_costs_keys
             (Namespace.mk "optical" "quantum" (Some 1) None None)))).
    simpl. intros H. repeat (destruct H as [H | H]; [discriminate H |]).
    exact H.
  - apply (proj2 (proj2 (resolve_costs_keys
             (Namespace.mk "hbm" "quantum" None None None)))).
    + simpl. tauto.
    + simpl. intros H. repeat (destruct H as [H | H]; [discriminate H |]).
      exact H.
Defined.

(** What [_resolve_costs] returns when it returns: the two presets that
    the names select, with the overrides applied. *)
Lemma resolve_costs_found (args : Namespace.t) (compute : ComputeCost)
    (boundary : BoundaryCost) :
  _resolve_costs args = Found (compute, boundary) ->
  exists boundary0 compute0,
    In (Namespace.boundary args, boundary0) DEFAULT_BOUNDARIES
    /\ In (Namespace.compute args, compute0) DEFAULT_COMPUTE
    /\ boundary
       = match Namespace.beta args, Namespace.alpha args with
         | None, None => boundary0
         | _, _ =>
             mkBoundaryCost
               match Namespace.alpha args with
               | Some a => a
               | None => alpha_pj_per_event boundary0
               end
               match Namespace.beta args with
               | Some b => b
               | None => beta_pj_per_byte boundary0
               end
         end
    /\ compute
       = match Namespace.compute_pj_per_byte args with
         | Some c => mkComputeCost c
         | None => compute0
         end.
Proof.
  unfold _resolve_costs. intros H.
  destruct (in_dec string_dec (Namespace.boundary args)
              (map fst DEFAULT_BOUNDARIES)) as [Hb | Hb];
    [| rewrite (dict_getitem_absent _ _ Hb) in H; discriminate].
  destruct (dict_getitem_present _ _ Hb) as (b0 & Eb & Hinb).
  rewrite Eb in H.
  destruct (in_dec string_dec (Namespace.compute args)
              (map fst DEFAULT_COMPUTE)) as [Hc | Hc];
    [| rewrite (dict_getitem_absent _ _ Hc) in H; discriminate].
  destruct (dict_getitem_present _ _ Hc) as (c0 & Ec & Hinc).
  rewrite Ec in H.
  exists b0, c0. split; [exact Hinb |]. split; [exact Hinc |].
  injection H as <- <-. split; reflexivity.
Qed.

(** X18: each override of [_resolve_costs] acts on its own parameter
    only: the resolved [beta], [alpha] and compute cost are the override
    when it is given, a given [0] included, and the value of the named
    preset otherwise; in particular an override of [beta] alone keeps the
    preset [alpha], which is [0] in every preset. *)
Theorem resolve_costs_overrides (args : Namespace.t) (compute : ComputeCost)
    (boundary : BoundaryCost) :
  _resolve_costs args = Found (compute, boundary) ->
  exists boundary0 compute0,
    In (Namespace.boundary args, boundary0) DEFAULT_BOUNDARIES
    /\ In (Namespace.compute args, compute0) DEFAULT_COMPUTE
    /\ beta_pj_per_byte boundary
       = match Namespace.beta args with
         | Some b => b
         | None => beta_pj_per_byte boundary0
         end
    /\ alpha_pj_per_event boundary
       = match Namespace.alpha args with
         | Some a => a
         | None => 0
         end
    /\ pj_per_byte compute
       = match Namespace.compute_pj_per_byte args with
         | Some c => c
         | None => pj_per_byte compute0
         end.
Proof.
  intros H.
  destruct (resolve_costs_found args compute boundary H)
    as (b0 & c0 & Hinb & Hinc & -> & ->).
  destruct (default_boundaries_shape _ _ Hinb) as [Ha0 _].
  exists b0, c0. split; [exact Hinb |]. split; [exact Hinc |].
  destruct b0 as [a0 be0]. simpl in Ha0. subst a0.
  destruct (Namespace.beta args), (Namespace.alpha args),
    (Namespace.compute_pj_per_byte args); simpl; repeat split; reflexivity.
Qed.

Lemma resolve_costs_overrides_witness :
  exists compute boundary,
    _resolve_costs (Namespace.mk "chiplet" "lowv" (Some 0) None None)
    = Found (compute, boundary)
    /\ beta_pj_per_byte boundary = 0
    /\ alpha_pj_per_event boundary = 0.
Proof.
  exists (mkComputeCost 0.05), (mkBoundaryCost 0 0).
  split; [reflexivity |].
  destruct (resolve_costs_overrides
              (Namespace.mk "chiplet" "lowv" (Some 0) None None)
              (mkComputeCost 0.05) (mkBoundaryCost 0 0) eq_refl)
    as (b0 & c0 & _ & _ & Hbeta & Halpha & _).
  split; [exact Hbeta | exact Halpha].
Defined.

(** ** The summary that the command line reports after a sweep *)








(** ** From the command line to the sweep *)

(** X21: the sweep that [main] runs on resolved costs is well behaved:
    when the overrides that are given and the compute volume are not
    negative, in the range of the exact reading, every row of a sweep on
    the costs that [_resolve_costs] returns has a crossing fraction in
    [[0,1]] and a non-negative local elasticity. *)
Theorem cli_sweep_bounds (args : Namespace.t) (compute : ComputeCost)
    (boundary : BoundaryCost)
    (bytes_compute cross_min cross_max steps bytes_per_event : Z)
    (rows : list ResultPoint.t) :
  _resolve_costs args = Found (compute, boundary) ->
  (forall x, Namespace.beta args = Some x -> 0 <= x <= cost_limit) ->
  (forall x, Namespace.alpha args = Some x -> 0 <= x <= cost_limit) ->
  (forall x, Namespace.compute_pj_per_byte args = Some x ->
             0 <= x <= cost_limit) ->
  (0 <= bytes_compute <= count_limit)%Z -> (cross_max <= count_limit)%Z ->
  sweep bytes_compute cross_min cross_max steps bytes_per_event
    compute boundary = Ok rows ->
  forall r, In r rows ->
    0 <= ResultPoint.crossing_fraction r <= 1
    /\ 0 <= ResultPoint.epsilon_local r.
Proof.
  intros Hres Hbeta Halpha Hpj [Hbc _] _ Hrs r Hr.
  destruct (resolve_costs_found args compute boundary Hres)
    as (b0 & c0 & Hinb & Hinc & Eb & Ec).
  destruct (default_boundaries_shape _ _ Hinb) as [Ha0 Hb0].
  pose proof (default_compute_shape _ _ Hinc) as Hc0.
  assert (Hb' : 0 <= beta_pj_per_byte boundary).
  { rewrite Eb. destruct (Namespace.beta args) as [x |] eqn:E;
      [simpl; apply Hbeta; reflexivity |].
    destruct (Namespace.alpha args); simpl; lra. }
  assert (Ha' : 0 <= alpha_pj_per_event boundary).
  { rewrite Eb. destruct (Namespace.alpha args) as [x |] eqn:E;
      [destruct (Namespace.beta args); simpl; apply Halpha; reflexivity |].
    destruct (Namespace.beta args); simpl; lra. }
  assert (Hc' : 0 <= pj_per_byte compute).
  { rewrite Ec. destruct (Namespace.compute_pj_per_byte args) as [x |];
      [simpl; apply Hpj; reflexivity | lra]. }
  destruct (sweep_ok_records _ _ _ _ _ _ _ _ _ Hrs Hr)
    as (Hv & i & Hi & ->).
  split.
  - apply sweep_nth_fraction_bounds; assumption.
  - cbn [sweep_nth ResultPoint.epsilon_local].
    apply sample_epsilon_nonneg; assumption.
Qed.

Lemma cli_sweep_bounds_witness :
  exists rows,
    sweep 262144 256 524288 12 256
      (mkComputeCost 0.25) (mkBoundaryCost 0 3.20) = Ok rows
    /\ forall r, In r rows ->
         0 <= ResultPoint.crossing_fraction r <= 1
         /\ 0 <= ResultPoint.epsilon_local r.
Proof.
  assert (Hv : sweep_valid 256 524288 12 256) by (unfold sweep_valid; lia).
  eexists. split; [apply sweep_value; exact Hv |].
  apply (cli_sweep_bounds
           (Namespace.mk "analog" "digital" None None None)
           (mkComputeCost 0.25) (mkBoundaryCost 0 3.20)
           262144 256 524288 12 256 _
           eq_refl
           ltac:(intros x H; discriminate H)
           ltac:(intros x H; discriminate H)
           ltac:(intros x H; discriminate H)
           ltac:(unfold count_limit; lia)
           ltac:(unfold count_limit; lia)
           (sweep_value 262144 256 524288 12 256
              (mkComputeCost 0.25) (mkBoundaryCost 0 3.20) Hv)).
Defined.

(** * The source on doubles

    The statements of this part are on the module [B64]; they hold for
    every C library unless they name one. *)

Local Open Scope Z_scope.

(** ** The error monad, inverted *)

Lemma bind_ok {A B : Type} (m : result A) (k : A -> result B) (b : B) :
  bind m k = Ok b -> exists a, m = Ok a /\ k a = Ok b.
Proof.
  destruct m as [a | e]; simpl; intros H.
  - exists a. split; [reflexivity | exact H].
  - discriminate.
Qed.

Lemma bind_raise {A B : Type} (m : result A) (k : A -> result B) (e : exn) :
  bind m k = Raise e ->
  m = Raise e \/ exists a, m = Ok a /\ k a = Raise e.
Proof.
  destruct m as [a | e']; simpl; intros H.
  - right. exists a. split; [reflexivity | exact H].
  - left. injection H as ->. reflexivity.
Qed.









(** ** The sweep, taken apart *)






(** ** Rounding keeps the sign *)















(** ** The samples of a sweep *)






(** ** Which exceptions the arithmetic raises *)

Lemma arithmetic_error_overflow : arithmetic_error OverflowError.
Proof. left. reflexivity. Qed.

Lemma arithmetic_error_zero_division : arithmetic_error ZeroDivisionError.
Proof. right. left. reflexivity. Qed.

Lemma arithmetic_error_domain :
  arithmetic_error (ValueError "math domain error").
Proof. right. right. left. reflexivity. Qed.

Lemma arithmetic_error_nan :
  arithmetic_error (ValueError "cannot convert float NaN to integer").
Proof. right. right. right. reflexivity. Qed.


Lemma b64_float_raise (n : Z) (e : exn) :
  B64.float n = Raise e -> arithmetic_error e.
Proof.
  unfold B64.float.
  destruct (B64.is_inf _); intros H; [| discriminate].
  injection H as <-. apply arithmetic_error_overflow.
Qed.

Lemma b64_int_truediv_raise (a b : Z) (e : exn) :
  B64.int_truediv a b = Raise e -> arithmetic_error e.
Proof.
  unfold B64.int_truediv.
  destruct (b =? 0); intros H.
  - injection H as <-. apply arithmetic_error_zero_division.
  - destruct (B64.is_inf _); [| discriminate].
    injection H as <-. apply arithmetic_error_overflow.
Qed.

Lemma b64_truediv_raise (x y : B64.f64) (e : exn) :
  B64.truediv x y = Raise e -> arithmetic_error e.
Proof.
  unfold B64.truediv. destruct y; intros H; try discriminate.
  injection H as <-. apply arithmetic_error_zero_division.
Qed.

Lemma b64_round_raise (x : B64.f64) (e : exn) :
  B64.round x = Raise e -> arithmetic_error e.
Proof.
  unfold B64.round. destruct x; intros H; try discriminate;
    injection H as <-;
    [apply arithmetic_error_overflow | apply arithmetic_error_nan].
Qed.

Lemma b64_math_ceil_raise (x : B64.f64) (e : exn) :
  B64.math_ceil x = Raise e -> arithmetic_error e.
Proof.
  unfold B64.math_ceil. destruct x; intros H; try discriminate;
    injection H as <-;
    [apply arithmetic_error_overflow | apply arithmetic_error_nan].
Qed.

Lemma b64_math_log_raise (L : B64.Libm) (x : B64.f64) (e : exn) :
  B64.math_log L x = Raise e -> arithmetic_error e.
Proof.
  unfold B64.math_log.
  destruct x as [s | s | | s m ex]; try destruct s; intros H;
    try discriminate;
    try (injection H as <-; apply arithmetic_error_domain).
  destruct (_ || _); [| discriminate].
  injection H as <-. apply arithmetic_error_domain.
Qed.

Lemma b64_math_log_int_raise (L : B64.Libm) (n : Z) (e : exn) :
  B64.math_log_int L n = Raise e -> arithmetic_error e.
Proof.
  unfold B64.math_log_int.
  destruct (n <=? 0); intros H.
  - injection H as <-. apply arithmetic_error_domain.
  - destruct (B64.float n); [discriminate |].
    destruct (B64.long_frexp n). discriminate.
Qed.

Lemma b64_math_exp_raise (L : B64.Libm) (x : B64.f64) (e : exn) :
  B64.math_exp L x = Raise e -> arithmetic_error e.
Proof.
  unfold B64.math_exp.
  destruct (_ && _); intros H.
  - injection H as <-. apply arithmetic_error_domain.
  - destruct (_ && _); [| discriminate].
    injection H as <-. apply arithmetic_error_overflow.
Qed.

Create HintDb b64_raise.

#[local] Hint Resolve b64_float_raise b64_int_truediv_raise b64_truediv_raise
  b64_round_raise b64_math_ceil_raise b64_math_log_raise
  b64_math_log_int_raise b64_math_exp_raise : b64_raise.

(** Splits a hypothesis [x <- m ;; k = Raise e] into the case where [m]
    raised, closed with the lemmas above, and the case where [k] raised. *)
Ltac raise_step H :=
  let a := fresh "a" in
  let Ha := fresh "Ha" in
  apply bind_raise in H;
  destruct H as [H | [a [Ha H]]];
  [solve [eauto with b64_raise] |].

Lemma b64_energy_intra_raise (n : Z) (compute : B64.ComputeCost) (e : exn) :
  B64.energy_intra n compute = Raise e -> arithmetic_error e.
Proof.
  unfold B64.energy_intra. intros H. raise_step H. discriminate.
Qed.

Lemma b64_energy_cross_raise (b ev : Z) (boundary : B64.BoundaryCost)
    (e : exn) :
  B64.energy_cross b ev boundary = Raise e -> arithmetic_error e.
Proof.
  unfold B64.energy_cross. intros H. do 2 raise_step H. discriminate.
Qed.

Lemma b64_crossing_fraction_raise (c_cross c_total : B64.f64) (e : exn) :
  B64.crossing_fraction c_cross c_total = Raise e -> arithmetic_error e.
Proof.
  unfold B64.crossing_fraction.
  destruct (B64.fle _ _); intros H; [discriminate |].
  eauto with b64_raise.
Qed.

Lemma b64_log_slope_raise (L : B64.Libm) (x1 y1 x2 y2 : B64.f64) (e : exn) :
  B64.log_slope L x1 y1 x2 y2 = Raise e -> arithmetic_error e.
Proof.
  unfold B64.log_slope.
  destruct (_ || _); intros H; [discriminate |].
  do 4 raise_step H. eauto with b64_raise.
Qed.

#[local] Hint Resolve b64_energy_intra_raise b64_energy_cross_raise
  b64_crossing_fraction_raise b64_log_slope_raise : b64_raise.

Lemma b64_run_point_raise (p : ProgramPoint.t) (compute : B64.ComputeCost)
    (boundary : B64.BoundaryCost) (e : exn) :
  B64.run_point p compute boundary = Raise e -> arithmetic_error e.
Proof.
  unfold B64.run_point. intros H. do 3 raise_step H. discriminate.
Qed.

#[local] Hint Resolve b64_run_point_raise : b64_raise.






(** ** When a sweep raises *)





(** ** The elasticity of consecutive samples *)



(** ** The comparison, taken apart *)





(** ** Which check of the comparison fails first *)

(** The three checks of the comparison, in the order of the source. *)
Lemma b64_compare_checks (L : B64.Libm)
    (bytes_compute cross_bytes bytes_per_event : Z) (reduce_factor : B64.f64)
    (compute : B64.ComputeCost) (boundary : B64.BoundaryCost) :
  (cross_bytes <= 0 ->
   B64.compare_baseline_vs_reduced L bytes_compute cross_bytes
     bytes_per_event reduce_factor compute boundary
   = Raise (ValueError "cross_bytes must be > 0"))
  /\ (0 < cross_bytes -> bytes_per_event <= 0 ->
      B64.compare_baseline_vs_reduced L bytes_compute cross_bytes
        bytes_per_event reduce_factor compute boundary
      = Raise (ValueError "bytes_per_event must be > 0"))
  /\ (0 < cross_bytes -> 0 < bytes_per_event ->
      B64.fle reduce_factor B64.zero = true ->
      B64.compare_baseline_vs_reduced L bytes_compute cross_bytes
        bytes_per_event reduce_factor compute boundary
      = Raise (ValueError "reduce_factor must be > 0")).
Proof.
  unfold B64.compare_baseline_vs_reduced. repeat split.
  - intros H1. destruct (Z.leb_spec cross_bytes 0); [reflexivity | lia].
  - intros H1 H2. destruct (Z.leb_spec cross_bytes 0); [lia |].
    destruct (Z.leb_spec bytes_per_event 0); [reflexivity | lia].
  - intros H1 H2 H3. destruct (Z.leb_spec cross_bytes 0); [lia |].
    destruct (Z.leb_spec bytes_per_event 0); [lia |].
    rewrite H3. reflexivity.
Qed.

Lemma arithmetic_not_compare_validation (e : exn) :
  arithmetic_error e -> ~ compare_validation_error e.
Proof.
  intros [-> | [-> | [-> | ->]]] [H | [H | H]]; discriminate.
Qed.

(** On arguments that pass the three checks, the comparison raises nothing
    but an exception of the arithmetic. *)
Lemma b64_compare_raise (L : B64.Libm)
    (bytes_compute cross_bytes bytes_per_event : Z) (reduce_factor : B64.f64)
    (compute : B64.ComputeCost) (boundary : B64.BoundaryCost) (e : exn) :
  compare_precondition cross_bytes bytes_per_event reduce_factor ->
  B64.compare_baseline_vs_reduced L bytes_compute cross_bytes bytes_per_event
    reduce_factor compute boundary = Raise e ->
  arithmetic_error e.
Proof.
  intros [H1 [H2 H3]]. unfold B64.compare_baseline_vs_reduced.
  destruct (Z.leb_spec cross_bytes 0) as [N1 | _]; [lia |].
  destruct (Z.leb_spec bytes_per_event 0) as [N2 | _]; [lia |].
  rewrite H3. intros H.
  do 7 raise_step H.
  apply bind_raise in H.
  destruct H as [H | [[[[bi bc] bt] bf] [_ H]]]; [eauto with b64_raise |].
  apply bind_raise in H.
  destruct H as [H | [[[[ri rc] rt] rf] [_ H]]]; [eauto with b64_raise |].
  apply bind_raise in H. destruct H as [H | [gain [_ H]]].
  { destruct (B64.flt B64.zero rt); [eauto with b64_raise | discriminate]. }
  apply bind_raise in H. destruct H as [H | [eff [_ H]]].
  { destruct (_ && _); [| discriminate].
    do 2 raise_step H. eauto with b64_raise. }
  do 4 raise_step H. discriminate.
Qed.

(** X1.  The three checks of the comparison are made in the order
    [cross_bytes], [bytes_per_event], [reduce_factor], and the message is
    that of the first check that fails; the comparison raises one of these
    three [ValueError]s exactly when a check fails, and on arguments that
    pass the checks it returns a record or raises an exception of the
    arithmetic. *)
Theorem compare_raises_iff (L : B64.Libm)
    (bytes_compute cross_bytes bytes_per_event : Z) (reduce_factor : B64.f64)
    (compute : B64.ComputeCost) (boundary : B64.BoundaryCost) :
  (cross_bytes <= 0 ->
   B64.compare_baseline_vs_reduced L bytes_compute cross_bytes
     bytes_per_event reduce_factor compute boundary
   = Raise (ValueError "cross_bytes must be > 0"))
  /\ (0 < cross_bytes -> bytes_per_event <= 0 ->
      B64.compare_baseline_vs_reduced L bytes_compute cross_bytes
        bytes_per_event reduce_factor compute boundary
      = Raise (ValueError "bytes_per_event must be > 0"))
  /\ (0 < cross_bytes -> 0 < bytes_per_event ->
      B64.fle reduce_factor B64.zero = true ->
      B64.compare_baseline_vs_reduced L bytes_compute cross_bytes
        bytes_per_event reduce_factor compute boundary
      = Raise (ValueError "reduce_factor must be > 0"))
  /\ ((exists e,
         B64.compare_baseline_vs_reduced L bytes_compute cross_bytes
           bytes_per_event reduce_factor compute boundary = Raise e
         /\ compare_validation_error e)
      <-> ~ compare_precondition cross_bytes bytes_per_event reduce_factor)
  /\ (compare_precondition cross_bytes bytes_per_event reduce_factor ->
      (exists out,
         B64.compare_baseline_vs_reduced L bytes_compute cross_bytes
           bytes_per_event reduce_factor compute boundary = Ok out)
      \/ (exists e,
            B64.compare_baseline_vs_reduced L bytes_compute cross_bytes
              bytes_per_event reduce_factor compute boundary = Raise e
            /\ arithmetic_error e)).
Proof.
  destruct (b64_compare_checks L bytes_compute cross_bytes bytes_per_event
              reduce_factor compute boundary) as [C1 [C2 C3]].
  split; [exact C1 |]. split; [exact C2 |]. split; [exact C3 |].
  split; [split |].
  - intros [e [He Hv]] Hp.
    apply (arithmetic_not_compare_validation e); [| exact Hv].
    eapply b64_compare_raise; eassumption.
  - intros Hn.
    destruct (Z.le_gt_cases cross_bytes 0) as [H1 | H1].
    { eexists. split; [apply C1; exact H1 | left; reflexivity]. }
    destruct (Z.le_gt_cases bytes_per_event 0) as [H2 | H2].
    { eexists. split; [apply C2; assumption | right; left; reflexivity]. }
    destruct (B64.fle reduce_factor B64.zero) eqn:H3.
    { eexists. split; [apply C3; auto | right; right; reflexivity]. }
    exfalso. apply Hn. unfold compare_precondition. auto.
  - intros Hp.
    destruct (B64.compare_baseline_vs_reduced L bytes_compute cross_bytes
                bytes_per_event reduce_factor compute boundary)
      as [out | e] eqn:Hc.
    + left. exists out. reflexivity.
    + right. exists e. split; [reflexivity |].
      eapply b64_compare_raise; eassumption.
Qed.

Lemma compare_raises_iff_witness :
  B64.compare_baseline_vs_reduced libm_on_powers_of_two 0 0 0 B64.zero
    unit_compute unit_boundary
  = Raise (ValueError "cross_bytes must be > 0")
  /\ B64.compare_baseline_vs_reduced libm_on_powers_of_two 0 1 0 B64.zero
       unit_compute unit_boundary
     = Raise (ValueError "bytes_per_event must be > 0")
  /\ B64.compare_baseline_vs_reduced libm_on_powers_of_two 0 1 1 B64.zero
       unit_compute unit_boundary
     = Raise (ValueError "reduce_factor must be > 0").
Proof.
  split; [| split].
  - apply (compare_raises_iff libm_on_powers_of_two 0 0 0 B64.zero unit_compute
             unit_boundary). lia.
  - apply (compare_raises_iff libm_on_powers_of_two 0 1 0 B64.zero unit_compute
             unit_boundary); lia.
  - apply (compare_raises_iff libm_on_powers_of_two 0 1 1 B64.zero unit_compute
             unit_boundary); try lia. reflexivity.
Defined.

(** ** The log-slope *)








(** ** The cost model on doubles *)

(** [crossing_fraction] on doubles, by the sign of the total. *)
Lemma crossing_fraction_value_b64 (c_cross c_total : B64.f64) :
  (B64.fle c_total B64.zero = true ->
   B64.crossing_fraction c_cross c_total = Ok B64.zero)
  /\ (B64.fle c_total B64.zero = false ->
      B64.crossing_fraction c_cross c_total
      = Ok (B64.fdiv c_cross c_total)).
Proof.
  unfold B64.crossing_fraction, B64.truediv.
  destruct c_total as [s | s | | s m e]; split; intros H;
    try discriminate; try reflexivity;
    destruct s; try discriminate; reflexivity.
Qed.

Lemma crossing_fraction_never_raises (c_cross c_total : B64.f64) :
  exists v, B64.crossing_fraction c_cross c_total = Ok v.
Proof.
  destruct (crossing_fraction_value_b64 c_cross c_total) as [F1 F2].
  destruct (B64.fle c_total B64.zero) eqn:E; eexists;
    [apply F1 | apply F2]; reflexivity.
Qed.

(** X25: [crossing_fraction] never raises on doubles, a NaN included: the
    guard [c_total <= 0] sends both zeros to [0.0], so the division that
    follows has a divisor that is not zero.  It returns [0.0] when
    [c_total <= 0] and the rounded quotient otherwise. *)
Theorem crossing_fraction_total (c_cross c_total : B64.f64) :
  (exists v, B64.crossing_fraction c_cross c_total = Ok v)
  /\ (B64.fle c_total B64.zero = true ->
      B64.crossing_fraction c_cross c_total = Ok B64.zero)
  /\ (B64.fle c_total B64.zero = false ->
      B64.crossing_fraction c_cross c_total
      = Ok (B64.fdiv c_cross c_total)).
Proof.
  split.
  - apply crossing_fraction_never_raises.
  - apply crossing_fraction_value_b64.
Qed.

Lemma crossing_fraction_total_witness :
  B64.crossing_fraction B64.one B64.zero = Ok B64.zero
  /\ B64.crossing_fraction B64.one B64.two = Ok B64.half.
Proof.
  split.
  - apply (proj1 (proj2 (crossing_fraction_total B64.one B64.zero))).
    reflexivity.
  - apply (proj2 (proj2 (crossing_fraction_total B64.one B64.two))).
    reflexivity.
Defined.

(** What [run_point] did, when it returned. *)
Lemma b64_run_point_ok (p : ProgramPoint.t) (compute : B64.ComputeCost)
    (boundary : B64.BoundaryCost) (c_intra c_cross c_total frac : B64.f64) :
  B64.run_point p compute boundary = Ok (c_intra, c_cross, c_total, frac) ->
  exists xc xe xb,
    B64.float (ProgramPoint.bytes_compute p) = Ok xc
    /\ B64.float (ProgramPoint.events_cross p) = Ok xe
    /\ B64.float (ProgramPoint.bytes_cross p) = Ok xb
    /\ c_intra = B64.fmul xc (B64.pj_per_byte compute)
    /\ c_cross = B64.fadd (B64.fmul xe (B64.alpha_pj_per_event boundary))
                   (B64.fmul xb (B64.beta_pj_per_byte boundary))
    /\ c_total = B64.fadd c_intra c_cross
    /\ B64.crossing_fraction c_cross c_total = Ok frac.
Proof.
  unfold B64.run_point, B64.energy_intra, B64.energy_cross. intros H.
  apply bind_ok in H. destruct H as [ci [Hi H]].
  apply bind_ok in Hi. destruct Hi as [xc [Hxc Hi]]. injection Hi as <-.
  apply bind_ok in H. destruct H as [cc [Hc H]].
  apply bind_ok in Hc. destruct Hc as [xe [Hxe Hc]].
  apply bind_ok in Hc. destruct Hc as [xb [Hxb Hc]]. injection Hc as <-.
  apply bind_ok in H. destruct H as [fr [Hf H]].
  injection H as <- <- <- <-.
  exists xc, xe, xb. repeat split; assumption.
Qed.

(** X26: on doubles [run_point] returns exactly when its three counts have
    a double, and it raises nothing but the [OverflowError] of [float];
    what it returns is [c_intra = float(bytes_compute) * pj_per_byte],
    [c_cross = float(events_cross) * alpha + float(bytes_cross) * beta],
    [c_total = c_intra + c_cross], each operation rounded once, and the
    fraction [0.0] when [c_total <= 0] and the rounded quotient
    [c_cross / c_total] otherwise. *)
Theorem run_point_on_doubles (p : ProgramPoint.t)
    (compute : B64.ComputeCost) (boundary : B64.BoundaryCost) :
  (forall c_intra c_cross c_total frac,
     B64.run_point p compute boundary = Ok (c_intra, c_cross, c_total, frac) ->
     exists xc xe xb,
       B64.float (ProgramPoint.bytes_compute p) = Ok xc
       /\ B64.float (ProgramPoint.events_cross p) = Ok xe
       /\ B64.float (ProgramPoint.bytes_cross p) = Ok xb
       /\ c_intra = B64.fmul xc (B64.pj_per_byte compute)
       /\ c_cross = B64.fadd (B64.fmul xe (B64.alpha_pj_per_event boundary))
                      (B64.fmul xb (B64.beta_pj_per_byte boundary))
       /\ c_total = B64.fadd c_intra c_cross
       /\ (B64.fle c_total B64.zero = true -> frac = B64.zero)
       /\ (B64.fle c_total B64.zero = false ->
           frac = B64.fdiv c_cross c_total))
  /\ (forall e, B64.run_point p compute boundary = Raise e ->
                e = OverflowError)
  /\ ((exists xc xe xb,
         B64.float (ProgramPoint.bytes_compute p) = Ok xc
         /\ B64.float (ProgramPoint.events_cross p) = Ok xe
         /\ B64.float (ProgramPoint.bytes_cross p) = Ok xb)
      -> exists out, B64.run_point p compute boundary = Ok out).
Proof.
  split; [| split].
  - intros ci cc ct fr H. apply b64_run_point_ok in H.
    destruct H as [xc [xe [xb [Hxc [Hxe [Hxb [Ei [Ec [Et Hf]]]]]]]]].
    exists xc, xe, xb.
    do 6 (split; [assumption |]).
    destruct (crossing_fraction_value_b64 cc ct) as [F1 F2].
    split; intros Hle.
    + rewrite (F1 Hle) in Hf. injection Hf as <-. reflexivity.
    + rewrite (F2 Hle) in Hf. injection Hf as <-. reflexivity.
  - intros e. unfold B64.run_point, B64.energy_intra, B64.energy_cross.
    intros H.
    assert (Hfloat : forall n e', B64.float n = Raise e' -> e' = OverflowError).
    { intros n e'. unfold B64.float.
      destruct (B64.is_inf _); intros E; [| discriminate].
      injection E as <-. reflexivity. }
    apply bind_raise in H. destruct H as [H | [ci [_ H]]].
    { apply bind_raise in H. destruct H as [H | [xc [_ H]]];
        [eapply Hfloat; exact H | discriminate]. }
    apply bind_raise in H. destruct H as [H | [cc [_ H]]].
    { apply bind_raise in H. destruct H as [H | [xe [_ H]]];
        [eapply Hfloat; exact H |].
      apply bind_raise in H. destruct H as [H | [xb [_ H]]];
        [eapply Hfloat; exact H | discriminate]. }
    apply bind_raise in H. destruct H as [H | [fr [_ H]]]; [| discriminate].
    destruct (crossing_fraction_never_raises cc (B64.fadd ci cc)) as [v Hv].
    rewrite Hv in H. discriminate.
  - intros [xc [xe [xb [Hxc [Hxe Hxb]]]]].
    unfold B64.run_point, B64.energy_intra, B64.energy_cross.
    rewrite Hxc, Hxe, Hxb. cbn [bind].
    destruct (crossing_fraction_never_raises
                (B64.fadd (B64.fmul xe (B64.alpha_pj_per_event boundary))
                   (B64.fmul xb (B64.beta_pj_per_byte boundary)))
                (B64.fadd (B64.fmul xc (B64.pj_per_byte compute))
                   (B64.fadd (B64.fmul xe (B64.alpha_pj_per_event boundary))
                      (B64.fmul xb (B64.beta_pj_per_byte boundary)))))
      as [v Hv].
    rewrite Hv. cbn [bind]. eexists. reflexivity.
Qed.

Lemma run_point_on_doubles_witness :
  exists out,
    B64.run_point (ProgramPoint.mk 100 10 3) unit_compute unit_boundary
    = Ok out.
Proof.
  apply (proj2 (proj2 (run_point_on_doubles (ProgramPoint.mk 100 10 3)
                         unit_compute unit_boundary))).
  do 3 eexists. repeat split; vm_compute; reflexivity.
Defined.






Local Close Scope Z_scope.

(** * The order of the energies

    What the exact reading keeps of the order claims, each next to the
    input on which the claim fails. *)

(** ** Along a sweep *)




(** ** Between two comparisons *)

(** C9, as the claim states it, fails.  The arguments are valid and no
    input is negative.  With [alpha = 0] the baseline fraction is
    [1 - 3 * 2^-53]; with [alpha = 1], all the rest unchanged, it is the
    smaller [1 - 4 * 2^-53]: the crossing energy and the total both grow,
    and their rounded quotient falls by one unit in the last place.  The
    baseline does not depend on [reduce_factor], taken as [1.0] here. *)
Lemma compare_alpha_not_monotone :
  compare_precondition 25396596931 1 B64.one
  /\ B64.int_truediv 1 10000 = Ok d0_0001
  /\ B64.float 10 = Ok d10
  /\ exists out0 out1,
       (forall L : B64.Libm,
          B64.compare_baseline_vs_reduced L 1 25396596931 1 B64.one
            (B64.mkComputeCost d0_0001) (B64.mkBoundaryCost B64.zero d10)
          = Ok out0)
       /\ (forall L : B64.Libm,
             B64.compare_baseline_vs_reduced L 1 25396596931 1 B64.one
               (B64.mkComputeCost d0_0001) (B64.mkBoundaryCost B64.one d10)
             = Ok out1)
       /\ B64.CompareResult.baseline_cross_frac out0
          = S754_finite false 9007199254740989 (-53)
       /\ B64.CompareResult.baseline_cross_frac out1
          = S754_finite false 9007199254740988 (-53)
       /\ B64.flt (B64.CompareResult.baseline_cross_frac out1)
            (B64.CompareResult.baseline_cross_frac out0) = true.
Proof.
  split; [unfold compare_precondition; repeat split; lia |].
  split; [vm_compute; reflexivity |].
  split; [vm_compute; reflexivity |].
  eexists. eexists.
  split; [intros L; vm_compute; reflexivity |].
  split; [intros L; vm_compute; reflexivity |].
  repeat split.
Qed.

(** C9, amended.  With a compute volume and costs that are not negative,
    in the range of the exact reading, a larger [alpha_pj_per_event], all
    the rest being kept, leaves the baseline intra-domain energy as it is
    and decreases neither the baseline crossing energy nor the baseline
    total; the baseline crossing fraction stays in [[0,1]].  No order is
    stated of the crossing fraction: it is a rounded quotient in the source,
    where it can fall by one unit in the last place. *)
Theorem compare_alpha_monotone (bytes_compute cross_bytes bytes_per_event : Z)
    (reduce_factor : R) (compute : ComputeCost) (alpha1 alpha2 beta : R)
    (out1 out2 : CompareResult.t) :
  (0 <= bytes_compute <= count_limit)%Z -> (cross_bytes <= count_limit)%Z ->
  moderate_costs compute (mkBoundaryCost alpha2 beta) ->
  0 <= alpha1 -> alpha1 <= alpha2 ->
  compare_baseline_vs_reduced bytes_compute cross_bytes bytes_per_event
    reduce_factor compute (mkBoundaryCost alpha1 beta) = Ok out1 ->
  compare_baseline_vs_reduced bytes_compute cross_bytes bytes_per_event
    reduce_factor compute (mkBoundaryCost alpha2 beta) = Ok out2 ->
  CompareResult.baseline_intra_pj out1 = CompareResult.baseline_intra_pj out2
  /\ CompareResult.baseline_cross_pj out1
     <= CompareResult.baseline_cross_pj out2
  /\ CompareResult.baseline_total_pj out1
     <= CompareResult.baseline_total_pj out2
  /\ 0 <= CompareResult.baseline_cross_frac out1 <= 1
  /\ 0 <= CompareResult.baseline_cross_frac out2 <= 1.
Proof.
  intros [Hbc _] _ Hcosts Ha1 Ha12 H1 H2.
  destruct (moderate_costs_nonneg _ _ Hcosts) as (Hpj & Ha2 & Hbeta).
  simpl in Ha2, Hbeta.
  apply compare_ok_inv in H1 as [(Hcb & Hbpe & Hrf) ->].
  apply compare_ok_inv in H2 as [_ ->].
  unfold compare_value.
  cbn [CompareResult.baseline_intra_pj CompareResult.baseline_cross_pj
       CompareResult.baseline_total_pj CompareResult.baseline_cross_frac].
  unfold point_total, point_intra, point_cross.
  cbn [ProgramPoint.bytes_compute ProgramPoint.bytes_cross
       ProgramPoint.events_cross].
  pose proof (event_count_positive bytes_per_event cross_bytes) as Hev.
  apply IZR_le in Hev.
  assert (Hb : 0 < IZR cross_bytes) by (apply IZR_lt; lia).
  assert (Hi : 0 <= energy_intra bytes_compute compute)
    by (apply energy_intra_nonneg; assumption).
  assert (Hc1 : 0 <= energy_cross cross_bytes
                     (event_count bytes_per_event cross_bytes)
                     (mkBoundaryCost alpha1 beta))
    by (unfold energy_cross, float; simpl; nra).
  assert (Hc12 : energy_cross cross_bytes
                   (event_count bytes_per_event cross_bytes)
                   (mkBoundaryCost alpha1 beta)
                 <= energy_cross cross_bytes
                      (event_count bytes_per_event cross_bytes)
                      (mkBoundaryCost alpha2 beta))
    by (unfold energy_cross, float; simpl; nra).
  split; [reflexivity |]. split; [exact Hc12 |]. split; [lra |].
  split; apply fraction_value_share; lra.
Qed.

Lemma compare_alpha_monotone_witness :
  exists out1 out2,
    compare_baseline_vs_reduced 262144 196608 256 3
      (mkComputeCost 0.25) (mkBoundaryCost 0 3.2) = Ok out1
    /\ compare_baseline_vs_reduced 262144 196608 256 3
         (mkComputeCost 0.25) (mkBoundaryCost 100 3.2) = Ok out2
    /\ CompareResult.baseline_cross_pj out1
       <= CompareResult.baseline_cross_pj out2
    /\ CompareResult.baseline_total_pj out1
       <= CompareResult.baseline_total_pj out2.
Proof.
  pose proof cost_limit_large as Hl.
  do 2 eexists.
  split; [apply compare_ok; try lia; lra |].
  split; [apply compare_ok; try lia; lra |].
  refine ((fun H => conj (proj1 (proj2 H)) (proj1 (proj2 (proj2 H))))
            (compare_alpha_monotone 262144 196608 256 3 (mkComputeCost 0.25)
               0 100 3.2 _ _ _ _ _ _ _ _ _)).
  - unfold count_limit. lia.
  - unfold count_limit. lia.
  - unfold moderate_costs. simpl. lra.
  - lra.
  - lra.
  - apply compare_ok; try lia; lra.
  - apply compare_ok; try lia; lra.
Defined.

(** ** Between the baseline and the reduced point *)

(** C10, as the claim states it, fails.  The arguments are valid, the costs
    are non-negative and [reduce_factor = 1.0]; the crossing volume is above
    [2^53].  The baseline events are the ceiling of the rounded quotient
    [cross_bytes / 3]; the reduced bytes are [round(float(cross_bytes))],
    a neighbour of [cross_bytes], and their quotient by 3 rounds to the next
    double: the reduced point has more events than the baseline. *)
Lemma compare_reduced_events_exceed :
  compare_precondition 228145473634812211 3 B64.one
  /\ exists out,
       (forall L : B64.Libm,
          B64.compare_baseline_vs_reduced L 1 228145473634812211 3 B64.one
            unit_compute unit_boundary = Ok out)
       /\ B64.CompareResult.baseline_events out
          = S754_finite false 4753030700725254 4
       /\ B64.CompareResult.reduced_events out
          = S754_finite false 4753030700725255 4
       /\ B64.flt (B64.CompareResult.baseline_events out)
            (B64.CompareResult.reduced_events out) = true.
Proof.
  split.
  - unfold compare_precondition. repeat split; lia.
  - eexists. split; [intros L; vm_compute; reflexivity |].
    repeat split.
Qed.

(** C10, amended.  In the range of the exact reading, where
    [float(cross_bytes)] is [cross_bytes] itself, with costs that are not
    negative and [reduce_factor >= 1], the reduced point of a comparison
    that returned does not exceed the baseline:
    [reduced_cross_bytes <= baseline_cross_bytes],
    [reduced_events <= baseline_events],
    [reduced_total_pj <= baseline_total_pj], and [energy_gain_x] is
    positive infinity or a number that is at least [1]. *)
Theorem compare_reduced_le (bytes_compute cross_bytes bytes_per_event : Z)
    (reduce_factor : R) (compute : ComputeCost) (boundary : BoundaryCost)
    (out : CompareResult.t) :
  (Z.abs bytes_compute <= count_limit)%Z -> (cross_bytes <= count_limit)%Z ->
  moderate_costs compute boundary -> 1 <= reduce_factor ->
  compare_baseline_vs_reduced bytes_compute cross_bytes bytes_per_event
    reduce_factor compute boundary = Ok out ->
  CompareResult.reduced_cross_bytes out
  <= CompareResult.baseline_cross_bytes out
  /\ CompareResult.reduced_events out <= CompareResult.baseline_events out
  /\ CompareResult.reduced_total_pj out
     <= CompareResult.baseline_total_pj out
  /\ (CompareResult.energy_gain_x out = PInf
      \/ exists g, CompareResult.energy_gain_x out = Finite g /\ 1 <= g).
Proof.
  intros _ _ Hcosts Hrf Hout.
  destruct (moderate_costs_nonneg _ _ Hcosts) as (_ & Ha & Hbeta).
  apply compare_ok_inv in Hout as [(Hcb & Hbpe & _) ->].
  unfold compare_value. simpl.
  pose proof (reduced_bytes_le cross_bytes reduce_factor Hcb Hrf) as Hbytes.
  pose proof (event_count_monotone bytes_per_event _ _ Hbpe Hbytes) as Hev.
  assert (Htot :
    point_total compute boundary
      (ProgramPoint.mk bytes_compute
         (reduced_bytes cross_bytes reduce_factor)
         (event_count bytes_per_event
            (reduced_bytes cross_bytes reduce_factor)))
    <= point_total compute boundary
         (ProgramPoint.mk bytes_compute cross_bytes
            (event_count bytes_per_event cross_bytes))).
  { unfold point_total, point_intra, point_cross. simpl.
    pose proof (energy_cross_monotone boundary _ _ _ _ Ha Hbeta Hbytes Hev).
    lra. }
  split; [apply IZR_le; exact Hbytes |].
  split; [apply IZR_le; exact Hev |].
  split; [exact Htot |].
  unfold gain_value. cmp_cases; [right | left; reflexivity].
  eexists. split; [reflexivity |].
  apply Rmult_le_reg_r with
    (point_total compute boundary
       (ProgramPoint.mk bytes_compute
          (reduced_bytes cross_bytes reduce_factor)
          (event_count bytes_per_event
             (reduced_bytes cross_bytes reduce_factor)))); [assumption |].
  unfold Rdiv. rewrite Rmult_assoc, Rinv_l by lra. lra.
Qed.

Lemma compare_reduced_le_witness :
  exists out,
    compare_baseline_vs_reduced 262144 196608 256 3
      (mkComputeCost 0.25) (mkBoundaryCost 0 3.2) = Ok out
    /\ CompareResult.reduced_cross_bytes out
       <= CompareResult.baseline_cross_bytes out
    /\ CompareResult.reduced_total_pj out
       <= CompareResult.baseline_total_pj out.
Proof.
  pose proof cost_limit_large as Hl.
  eexists. split; [apply compare_ok; try lia; lra |].
  refine ((fun H => conj (proj1 H) (proj1 (proj2 (proj2 H))))
            (compare_reduced_le 262144 196608 256 3 (mkComputeCost 0.25)
               (mkBoundaryCost 0 3.2) _ _ _ _ _ _)).
  - unfold count_limit. lia.
  - unfold count_limit. lia.
  - unfold moderate_costs. simpl. lra.
  - lra.
  - apply compare_ok; try lia; lra.
Defined.
